(** * binary_mask.py: thresholded binary masks over a batch of images

    A shallow embedding of [src/binary_mask.py].  NumPy arrays are flat
    buffers with a shape, indexed and updated the way NumPy does; Python
    exceptions are an error type; the file system, the log and the written
    mask files form an explicit world that the functions thread through. *)

From Stdlib Require Import ZArith Lia Ascii String.
From stdpp Require Import base list gmap strings.

(** ** Exceptions and results *)

(** The exceptions the script can meet.  All of them derive from Python's
    [Exception], the class the handler of [process_image] catches. *)
Inductive exn :=
| IndexError
| FileExistsError (path : string)
| OSError (msg : string)
| cv2_error (msg : string).

Inductive result (A : Type) :=
| Ok (a : A)
| Raise (e : exn).
Arguments Ok {A} a.
Arguments Raise {A} e.

Global Instance result_ret : MRet result := λ A a, Ok a.
Global Instance result_bind : MBind result := λ A B k r,
  match r with
  | Ok a => k a
  | Raise e => Raise e
  end.

(** [for x in xs: s = body(x, s)], stopping at the first exception. *)
Fixpoint for_each {A S} (xs : list A) (body : A → S → result S) (s : S)
  : result S :=
  match xs with
  | [] => Ok s
  | x :: xs' => s' ← body x s; for_each xs' body s'
  end.

(** Python's [range(n)]. *)
Definition range (n : nat) : list nat := seq 0 n.

(** ** NumPy arrays *)

(** A [uint8] array of shape [(shape0, shape1, shape2)] in C order: what
    [cv2.imread] returns for a decodable file. *)
Record ndarray3 := Ndarray3 {
  shape0 : nat;
  shape1 : nat;
  shape2 : nat;
  items3 : list Z
}.

(** A [uint8] array of shape [(mshape0, mshape1)] in C order: the mask. *)
Record ndarray2 := Ndarray2 {
  mshape0 : nat;
  mshape1 : nat;
  items2 : list Z
}.

(** [a[i, j, c]] for non-negative indices; out of bounds is an
    [IndexError]. *)
Definition getitem3 (a : ndarray3) (i j c : nat) : result Z :=
  if (i <? shape0 a) && (j <? shape1 a) && (c <? shape2 a) then
    match items3 a !! ((i * shape1 a + j) * shape2 a + c) with
    | Some v => Ok v
    | None => Raise IndexError
    end
  else Raise IndexError.

(** [m[i, j]]. *)
Definition getitem2 (m : ndarray2) (i j : nat) : result Z :=
  if (i <? mshape0 m) && (j <? mshape1 m) then
    match items2 m !! (i * mshape1 m + j) with
    | Some v => Ok v
    | None => Raise IndexError
    end
  else Raise IndexError.

(** [m[i, j] = v]. *)
Definition setitem2 (m : ndarray2) (i j : nat) (v : Z) : result ndarray2 :=
  if (i <? mshape0 m) && (j <? mshape1 m) then
    Ok {| mshape0 := mshape0 m; mshape1 := mshape1 m;
          items2 := <[i * mshape1 m + j := v]> (items2 m) |}
  else Raise IndexError.

(** [np.zeros((h, w), dtype=np.uint8)]. *)
Definition np_zeros (h w : nat) : ndarray2 :=
  {| mshape0 := h; mshape1 := w; items2 := replicate (h * w) 0%Z |}.

(** [m == v], elementwise. *)
Definition np_equal (m : ndarray2) (v : Z) : list bool :=
  map (λ x, Z.eqb x v) (items2 m).

(** [np.sum] of a boolean array: [True] counts 1.  The accumulator is a
    64-bit integer in NumPy; an image is far below [2^63] pixels, so the sum
    is written over [Z]. *)
Definition np_sum (bs : list bool) : Z :=
  foldr (λ b acc, (Z.b2z b + acc)%Z) 0%Z bs.

(** An array as [cv2.imread] builds it with its default flag: three
    channels, one byte each, and a buffer that fills the shape. *)
Definition uint8 (v : Z) : bool := (0 <=? v)%Z && (v <? 256)%Z.

Definition wf_image (a : ndarray3) : bool :=
  (shape2 a =? 3) &&
  (length (items3 a) =? shape0 a * shape1 a * shape2 a) &&
  forallb uint8 (items3 a).

(** ** The mask of one image (lines 49-56) *)

(** The test of line 55.  Python's [and] is short-circuit: a later channel
    is read only when the earlier ones passed. *)
Definition all_above (image : ndarray3) (i j : nat) : result bool :=
  v0 ← getitem3 image i j 0;
  if negb (200 <? v0)%Z then Ok false else
  v1 ← getitem3 image i j 1;
  if negb (200 <? v1)%Z then Ok false else
  v2 ← getitem3 image i j 2;
  Ok (200 <? v2)%Z.

Definition mask_pixel (image : ndarray3) (i j : nat) (mask : ndarray2)
  : result ndarray2 :=
  b ← all_above image i j;
  if b : bool then setitem2 mask i j 255 else Ok mask.

Definition mask_row (image : ndarray3) (i : nat) (mask : ndarray2)
  : result ndarray2 :=
  for_each (range (shape1 image)) (λ j, mask_pixel image i j) mask.

Definition build_mask (image : ndarray3) : result ndarray2 :=
  for_each (range (shape0 image)) (λ i, mask_row image i)
    (np_zeros (shape0 image) (shape1 image)).

(** ** The thresholded grid, position by position *)

(** Channel [c] of the pixel at flat position [k], and the value the mask
    must hold there. *)
Definition chan (image : ndarray3) (k c : nat) : Z :=
  default 0%Z (items3 image !! (k * 3 + c)).

Definition on_at (image : ndarray3) (k : nat) : bool :=
  (200 <? chan image k 0)%Z && (200 <? chan image k 1)%Z &&
  (200 <? chan image k 2)%Z.

Definition mask_value (b : bool) : Z := if b then 255%Z else 0%Z.

(** The mask buffer once the first [n] positions have been visited. *)
Definition visited (image : ndarray3) (n : nat) : list Z :=
  map (λ k, mask_value (on_at image k)) (seq 0 n) ++
  replicate (shape0 image * shape1 image - n) 0%Z.


(** The whole-grid formulation the specification recommends:
    [(image[:, :, 0] > 200) & (image[:, :, 1] > 200) & (image[:, :, 2] > 200)],
    then 255 where it holds and 0 elsewhere.  It follows the specification's
    words and is compared with [build_mask] below. *)
Definition np_greater_channel (image : ndarray3) (c : nat) (t : Z)
  : list bool :=
  map (λ k, Z.ltb t (default 0%Z (items3 image !! (k * shape2 image + c))))
      (seq 0 (shape0 image * shape1 image)).

Definition np_logical_and (xs ys : list bool) : list bool :=
  zip_with andb xs ys.

Definition np_where (cond : list bool) (x y : Z) : list Z :=
  map (λ b : bool, if b then x else y) cond.

Definition vectorized_cond (image : ndarray3) : list bool :=
  np_logical_and
    (np_logical_and (np_greater_channel image 0 200)
                    (np_greater_channel image 1 200))
    (np_greater_channel image 2 200).

Definition vectorized_mask (image : ndarray3) : ndarray2 :=
  {| mshape0 := shape0 image; mshape1 := shape1 image;
     items2 := np_where (vectorized_cond image) 255 0 |}.

(** Every pixel position [(i, j)] of an [h] by [w] grid, row by row. *)
Definition positions (h w : nat) : list (nat * nat) :=
  i ← seq 0 h; (λ j, (i, j)) <$> seq 0 w.

(** Whether the three channels at [(i, j)] all exceed 200, read through
    [getitem3]; an unreadable channel counts as not exceeding. *)
Definition exceeds (image : ndarray3) (i j c : nat) : bool :=
  match getitem3 image i j c with
  | Ok v => (200 <? v)%Z
  | Raise _ => false
  end.

Definition pixel_on (image : ndarray3) (ij : nat * nat) : bool :=
  exceeds image ij.1 ij.2 0 && exceeds image ij.1 ij.2 1 &&
  exceeds image ij.1 ij.2 2.

(** The spec's 2x2 scenario. *)
Definition scenario_image : ndarray3 :=
  Ndarray3 2 2 3 [255; 255; 255; 200; 200; 200; 201; 201; 201; 0; 0; 0]%Z.

(** ** Python strings *)

(** File names are byte strings here; [str.lower] changes the letters A-Z
    and no other byte below 128. *)
Definition ascii_lower (c : ascii) : ascii :=
  let n := nat_of_ascii c in
  if (65 <=? n) && (n <=? 90) then ascii_of_nat (n + 32) else c.

Fixpoint str_lower (s : string) : string :=
  match s with
  | EmptyString => EmptyString
  | String c s' => String (ascii_lower c) (str_lower s')
  end.

(** [s.endswith(suffix)]: the last [len(suffix)] characters are [suffix]. *)
Definition str_endswith (s suffix : string) : bool :=
  let n := String.length s in
  let k := String.length suffix in
  (k <=? n) && String.eqb (substring (n - k) k s) suffix.

(** [s.split(sep)] for a one-character separator: never the empty list. *)
Fixpoint str_split (sep : ascii) (s : string) : list string :=
  match s with
  | EmptyString => [EmptyString]
  | String c s' =>
      if Ascii.eqb c sep then EmptyString :: str_split sep s'
      else match str_split sep s' with
           | piece :: pieces => String c piece :: pieces
           | [] => [String c EmptyString]
           end
  end.

(** [l[-1]] and [l[0]]; an [IndexError] on the empty list. *)
Definition getitem_last {A} (l : list A) : result A :=
  match last l with
  | Some x => Ok x
  | None => Raise IndexError
  end.

Definition getitem_first {A} (l : list A) : result A :=
  match l with
  | x :: _ => Ok x
  | [] => Raise IndexError
  end.

(** Whether the character [c] occurs in [s]. *)
Fixpoint contains (c : ascii) (s : string) : bool :=
  match s with
  | EmptyString => false
  | String a s' => Ascii.eqb a c || contains c s'
  end.

(** [image_path.split('\\')[-1].split('.')[0]] of line 63. *)
Definition mask_stem (image_path : string) : result string :=
  name ← getitem_last (str_split "\" image_path);
  getitem_first (str_split "." name).

(** What the specification calls the original stem: the name after the last
    directory separator, up to its last dot.  It follows the specification's
    words (as [os.path.basename] and [os.path.splitext] read them) and is
    compared with [mask_stem] below. *)
Definition is_separator (c : ascii) : bool :=
  Ascii.eqb c "/" || Ascii.eqb c "\".

Fixpoint spec_basename (s : string) : string :=
  match s with
  | EmptyString => EmptyString
  | String c s' =>
      if contains "/" s' || contains "\" s' then spec_basename s'
      else if is_separator c then s' else s
  end.

Fixpoint spec_drop_extension (s : string) : string :=
  match s with
  | EmptyString => EmptyString
  | String c s' =>
      if contains "." s' then String c (spec_drop_extension s')
      else if Ascii.eqb c "." then EmptyString else s
  end.

Definition spec_stem (image_path : string) : string :=
  spec_drop_extension (spec_basename image_path).

(** The input filter of line 135, over the names [os.listdir] returned. *)
Definition selected (f : string) : bool := str_endswith (str_lower f) "g".

Definition select_names (entries : list string) : list string :=
  List.filter selected entries.

(** ** The world: file system, written masks, log *)

Inductive log_record :=
| Warning_failed_to_read (image_path : string)
| Info_mask_pixels (image_path : string) (mask_count : Z)
| Error_processing (image_path : string) (e : exn)
| Info_mask_saved (mask_filename : string)
| Info_total (total_mask_count : Z).

Record world := World {
  existing : gset string;          (* paths [os.path.exists] answers for *)
  written : gmap string ndarray2;  (* grids [cv2.imwrite] stored *)
  log : list log_record
}.

(** Effectful code: a result and the world it leaves, also when raising. *)
Definition M (A : Type) : Type := world → result A * world.

Global Instance M_ret : MRet M := λ A a w, (Ok a, w).
Global Instance M_bind : MBind M := λ A B k m w,
  match m w with
  | (Ok a, w') => k a w'
  | (Raise e, w') => (Raise e, w')
  end.

Definition lift {A} (r : result A) : M A := λ w, (r, w).

(** [try: body / except Exception as e: handler(e)]. *)
Definition try_except {A} (body : M A) (handler : exn → M A) : M A := λ w,
  match body w with
  | (Ok a, w') => (Ok a, w')
  | (Raise e, w') => handler e w'
  end.

Definition logging (r : log_record) : M unit := λ w,
  (Ok (), {| existing := existing w; written := written w;
             log := log w ++ [r] |}).

(** The collaborators outside the script: OpenCV's file I/O, the errors of
    the file system, and [os.path.join], whose result depends on the
    platform.  Input files are not modified while a batch runs, so decoding
    depends on the path alone; a batch one of whose inputs is also the mask
    file of another input is outside this model. *)
Class Collaborators := {
  (* [cv2.imread(path)]: an array, [None], or an exception *)
  imread : string → result (option ndarray3);
  (* [cv2.imwrite(path, grid)]: whether the file was stored, or an exception *)
  imwrite : string → ndarray2 → result bool;
  (* the error [os.makedirs] meets on a path that does not exist yet *)
  makedirs_fault : string → option exn;
  (* [os.path.join] on two components *)
  os_path_join : string → string → string
}.

Section Script.
Context `{Collaborators}.

Definition cv2_imread (image_path : string) : M (option ndarray3) :=
  lift (imread image_path).

Definition cv2_imwrite (filename : string) (mask : ndarray2) : M bool := λ w,
  match imwrite filename mask with
  | Ok true =>
      (Ok true, {| existing := {[filename]} ∪ existing w;
                   written := <[filename := mask]> (written w);
                   log := log w |})
  | Ok false => (Ok false, w)
  | Raise e => (Raise e, w)
  end.

Definition os_path_exists (path : string) : M bool := λ w,
  (Ok (bool_decide (path ∈ existing w)), w).

(** [os.makedirs(path)] with [exist_ok] left at [False].  Only the leaf is
    recorded: the script tests no other directory.  The missing parents
    that [os.makedirs] creates on the way are not part of the world, so
    nothing below bounds the set of paths a run creates. *)
Definition os_makedirs (path : string) : M unit := λ w,
  if bool_decide (path ∈ existing w) then (Raise (FileExistsError path), w)
  else match makedirs_fault path with
       | Some e => (Raise e, w)
       | None =>
           (Ok (), {| existing := {[path]} ∪ existing w;
                      written := written w; log := log w |})
       end.

(** Line 63. *)
Definition make_mask_filename (output_dir image_path : string)
  : result string :=
  stem ← mask_stem image_path;
  Ok (os_path_join output_dir (stem +:+ "_mask.png")).

(** The [try] block, lines 41-74. *)
Definition process_image_body (image_path output_dir : string)
  : M (Z * option string) :=
  image ← cv2_imread image_path;
  match image with
  | None =>
      logging (Warning_failed_to_read image_path);;
      mret (0%Z, None)
  | Some image =>
      mask ← lift (build_mask image);
      present ← os_path_exists output_dir;
      (if negb present then os_makedirs output_dir else mret ());;
      mask_filename ← lift (make_mask_filename output_dir image_path);
      cv2_imwrite mask_filename mask;;
      let mask_count := np_sum (np_equal mask 255) in
      logging (Info_mask_pixels image_path mask_count);;
      mret (mask_count, Some mask_filename)
  end.

(** Lines 40-78: the block and its handler. *)
Definition process_image (image_path output_dir : string)
  : M (Z * option string) :=
  try_except (process_image_body image_path output_dir)
    (λ e, logging (Error_processing image_path e);; mret (0%Z, None)).

(** ** The same function in steps, for the thread pool

    A worker running [process_image] touches the shared world at four
    points: decoding the file, testing the output directory, creating it,
    and writing the mask.  Between two of them another worker may run. *)
Inductive task :=
| Submitted (image_path output_dir : string)
| Masked (image_path output_dir : string) (mask : ndarray2)
| Creating (image_path output_dir : string) (mask : ndarray2)
| Writing (image_path output_dir : string) (mask : ndarray2)
| Returned (r : Z * option string)
| Failed (e : exn).

Definition task_path (t : task) : string :=
  match t with
  | Submitted p _ | Masked p _ _ | Creating p _ _ | Writing p _ _ => p
  | Returned _ | Failed _ => EmptyString
  end.

Definition step_body (t : task) : M task :=
  match t with
  | Submitted image_path output_dir =>
      image ← cv2_imread image_path;
      match image with
      | None =>
          logging (Warning_failed_to_read image_path);;
          mret (Returned (0%Z, None))
      | Some image =>
          mask ← lift (build_mask image);
          mret (Masked image_path output_dir mask)
      end
  | Masked image_path output_dir mask =>
      present ← os_path_exists output_dir;
      mret (if negb present then Creating image_path output_dir mask
            else Writing image_path output_dir mask)
  | Creating image_path output_dir mask =>
      os_makedirs output_dir;;
      mret (Writing image_path output_dir mask)
  | Writing image_path output_dir mask =>
      mask_filename ← lift (make_mask_filename output_dir image_path);
      cv2_imwrite mask_filename mask;;
      let mask_count := np_sum (np_equal mask 255) in
      logging (Info_mask_pixels image_path mask_count);;
      mret (Returned (mask_count, Some mask_filename))
  | Returned r => mret (Returned r)
  | Failed e => mret (Failed e)
  end.

(** One step of a worker, inside the [try] of line 40. *)
Definition step (t : task) : M task :=
  try_except (step_body t)
    (λ e, logging (Error_processing (task_path t) e);;
          mret (Returned (0%Z, None))).

(** What [future.result()] gives once the task has finished. *)
Definition outcome (t : task) : option (result (Z * option string)) :=
  match t with
  | Returned r => Some (Ok r)
  | Failed e => Some (Raise e)
  | _ => None
  end.

Definition is_done (t : task) : bool :=
  match outcome t with
  | Some _ => true
  | None => false
  end.

(** A worker left alone takes at most four steps. *)
Definition run_task (t : task) : M task :=
  t1 ← step t; t2 ← step t1; t3 ← step t2; step t3.

(** ** The thread pool (lines 98-112)

    [ThreadPoolExecutor] runs one invocation of [process_image] per path.
    Which worker moves next is the scheduler's choice: it is given as a list
    of worker indices, one entry per step.  An entry that names a finished
    worker, or no worker, is skipped; the workers still running when the list
    ends are run to their end in submission order.  Every interleaving of
    the workers' steps is the run of some such list. *)

Record pool := Pool {
  futures : list task;       (* in submission order *)
  (* the finished futures' results, in completion order *)
  completed : list (result (Z * option string));
  env : world
}.

(** [executor.submit] for every path. *)
Definition submit_all (image_paths : list string) (output_dir : string)
  (w : world) : pool :=
  {| futures := (λ image_path, Submitted image_path output_dir) <$> image_paths;
     completed := []; env := w |}.

(** Worker [k] takes one step.  An exception that left [process_image] would
    be kept in the future. *)
Definition worker_step (p : pool) (k : nat) : pool :=
  match futures p !! k with
  | None => p
  | Some t =>
      if is_done t then p
      else
        let '(r, w') := step t (env p) in
        let t' := match r with Ok t' => t' | Raise e => Failed e end in
        {| futures := <[k := t']> (futures p);
           completed := match outcome t' with
                        | Some res => completed p ++ [res]
                        | None => completed p
                        end;
           env := w' |}
  end.

(** The interleaving the scheduler chose: which worker moves next. *)
Definition run_schedule (schedule : list nat) (p : pool) : pool :=
  foldl worker_step p schedule.

(** Leaving the [with] block waits for every worker still running. *)
Definition finish_worker (p : pool) (k : nat) : pool :=
  worker_step (worker_step (worker_step (worker_step p k) k) k) k.

Definition join_all (p : pool) : pool :=
  foldl finish_worker p (seq 0 (length (futures p))).

Definition run_pool (schedule : list nat) (image_paths : list string)
  (output_dir : string) (w : world) : pool :=
  join_all (run_schedule schedule (submit_all image_paths output_dir w)).

(** Python's truth value of [mask_filename]. *)
Definition truthy (f : option string) : bool :=
  match f with
  | Some EmptyString | None => false
  | Some _ => true
  end.

(** The loop of lines 104-108 over the futures as they complete.
    [future.result()] raises again what the invocation raised, if anything.
    The total is a Python or NumPy integer far from its 64-bit limit and is
    written over [Z].  The loop is run once the workers are done, so its
    log records come after theirs; in the script the two may interleave. *)
Fixpoint collect (done : list (result (Z * option string)))
  (total_mask_count : Z) : M Z :=
  match done with
  | [] => mret total_mask_count
  | future :: rest =>
      '(mask_count, mask_filename) ← lift future;
      (if truthy mask_filename
       then logging (Info_mask_saved (default EmptyString mask_filename))
       else mret ());;
      collect rest (total_mask_count + mask_count)%Z
  end.

Definition process_images_in_parallel (schedule : list nat)
  (image_paths : list string) (output_dir : string) : M Z := λ w,
  let p := run_pool schedule image_paths output_dir w in
  (total_mask_count ← collect (completed p) 0%Z;
   logging (Info_total total_mask_count);;
   mret total_mask_count) (env p).

(** Line 135: the paths handed to the batch. *)
Definition main_image_paths (image_dir : string) (entries : list string)
  : list string :=
  os_path_join image_dir <$> select_names entries.

End Script.

(** ** Notions used in the statements *)

(** A mask of [h] rows and [w] columns whose buffer fills the shape. *)
Definition shaped (h w : nat) (m : ndarray2) : Prop :=
  mshape0 m = h ∧ mshape1 m = w ∧ length (items2 m) = h * w.

(** The world after the handler of line 77 has logged [e]. *)
Definition log_error (image_path : string) (e : exn) (w : world) : world :=
  {| existing := existing w; written := written w;
     log := log w ++ [Error_processing image_path e] |}.

(** The steps a worker still has to take. *)
Definition remaining (t : task) : nat :=
  match t with
  | Submitted _ _ => 4
  | Masked _ _ _ => 3
  | Creating _ _ _ => 2
  | Writing _ _ _ => 1
  | Returned _ | Failed _ => 0
  end.

Definition pending (p : pool) (k : nat) : nat :=
  from_option remaining 0 (futures p !! k).

(** The count a finished future contributes to the total. *)
Definition result_count (r : result (Z * option string)) : Z :=
  match r with
  | Ok (mask_count, _) => mask_count
  | Raise _ => 0%Z
  end.

Definition sum_counts (rs : list (result (Z * option string))) : Z :=
  foldr (λ r acc, (result_count r + acc)%Z) 0%Z rs.

(** The pixel positions of the image a path decodes to; none when the load
    fails. *)
Definition pixels_loaded `{Collaborators} (image_path : string) : Z :=
  match imread image_path with
  | Ok (Some image) => Z.of_nat (shape0 image * shape1 image)
  | _ => 0%Z
  end.

(** A task that works on [image_path] for [output_dir]: what it carries is
    the mask of the decoded image, and what it returns is that mask's count
    with the derived file name, or (0, absent). *)
Definition tracks `{Collaborators} (output_dir image_path : string)
  (t : task) : Prop :=
  match t with
  | Submitted p o => p = image_path ∧ o = output_dir
  | Masked p o mask | Creating p o mask | Writing p o mask =>
      p = image_path ∧ o = output_dir ∧
      ∃ image, imread image_path = Ok (Some image) ∧
               build_mask image = Ok mask
  | Returned (c, None) => c = 0%Z
  | Returned (c, Some f) =>
      ∃ image mask, imread image_path = Ok (Some image) ∧
        build_mask image = Ok mask ∧ c = np_sum (np_equal mask 255) ∧
        make_mask_filename output_dir image_path = Ok f
  | Failed _ => False
  end.


(** Future [j], if there is one, holds a result. *)
Definition done_at (p : pool) (j : nat) : Prop :=
  ∀ t, futures p !! j = Some t → is_done t = true.

(** The results collected so far are those of the finished futures, each
    once, in some order. *)
Definition collected (p : pool) : Prop :=
  completed p ≡ₚ omap outcome (futures p).

(** The shared world satisfies [I] and each future is related by [R] to
    the path it was submitted for. *)
Definition pool_ok (I : world → Prop) (R : string → task → Prop)
  (image_paths : list string) (p : pool) : Prop :=
  I (env p) ∧ Forall2 R image_paths (futures p).

(** What a finished invocation of [process_image] may hand back for
    [image_path]: a count between 0 and the pixels loaded, which is 0 when
    no file name comes with it. *)
Definition good_result `{Collaborators} (image_path : string)
  (r : result (Z * option string)) : Prop :=
  ∃ c f, r = Ok (c, f) ∧ (0 ≤ c ≤ pixels_loaded image_path)%Z ∧
         (f = None → c = 0%Z).

Definition sum_pixels `{Collaborators} (image_paths : list string) : Z :=
  foldr (λ image_path acc, (pixels_loaded image_path + acc)%Z) 0%Z
    image_paths.

(** The worlds [process_image] can leave: a record added to the log, a
    directory created, a mask stored. *)
Definition add_log (r : log_record) (w : world) : world :=
  {| existing := existing w; written := written w; log := log w ++ [r] |}.

Definition add_path (path : string) (w : world) : world :=
  {| existing := {[path]} ∪ existing w; written := written w;
     log := log w |}.

Definition store (filename : string) (mask : ndarray2) (w : world) : world :=
  {| existing := {[filename]} ∪ existing w;
     written := <[filename := mask]> (written w); log := log w |}.

(** Lines 63-74 once the output directory is there, handler included. *)
Definition save_mask `{Collaborators} (image_path output_dir : string)
  (mask : ndarray2) (w : world) : result (Z * option string) * world :=
  match make_mask_filename output_dir image_path with
  | Raise e => (Ok (0%Z, None), add_log (Error_processing image_path e) w)
  | Ok mask_filename =>
      match imwrite mask_filename mask with
      | Raise e => (Ok (0%Z, None), add_log (Error_processing image_path e) w)
      | Ok stored =>
          (Ok (np_sum (np_equal mask 255), Some mask_filename),
           add_log (Info_mask_pixels image_path (np_sum (np_equal mask 255)))
             (if stored then store mask_filename mask w else w))
      end
  end.

(** What an image may add to the batch total: nothing, or the number of
    255 entries of its own mask. *)
Definition contribution `{Collaborators} (image_path : string) (c : Z)
  : Prop :=
  c = 0%Z ∨
  ∃ image mask, imread image_path = Ok (Some image) ∧
    build_mask image = Ok mask ∧ c = np_sum (np_equal mask 255).

(** A path that does not decode to an image. *)
Definition unreadable `{Collaborators} (image_path : string) : Prop :=
  ∀ image, imread image_path ≠ Ok (Some image).

(** A task for an unreadable path: waiting to load, or back with
    (0, absent). *)
Definition tracks_unreadable `{Collaborators} (output_dir image_path : string)
  (t : task) : Prop :=
  unreadable image_path ∧
  (t = Submitted image_path output_dir ∨ t = Returned (0%Z, None)).

(** A path whose image loads and can be masked, named and written without
    an exception. *)
Definition processable `{Collaborators} (output_dir image_path : string)
  : Prop :=
  ∃ image mask f, imread image_path = Ok (Some image) ∧
    build_mask image = Ok mask ∧
    make_mask_filename output_dir image_path = Ok f ∧
    ∀ e, imwrite f mask ≠ Raise e.

(** A task that has not passed line 60 yet. *)
Definition early (t : task) : Prop :=
  match t with
  | Submitted _ _ | Masked _ _ _ | Creating _ _ _ => True
  | _ => False
  end.

Definition creating (t : task) : Prop :=
  match t with
  | Creating _ _ _ => True
  | _ => False
  end.

(** A task that has the output directory and cannot fail any more, or has
    returned the count of its image. *)
Definition winner `{Collaborators} (output_dir : string)
  (image_paths : list string) (t : task) : Prop :=
  ∃ p image mask f, p ∈ image_paths ∧ imread p = Ok (Some image) ∧
    build_mask image = Ok mask ∧ make_mask_filename output_dir p = Ok f ∧
    (∀ e, imwrite f mask ≠ Raise e) ∧
    (t = Writing p output_dir mask ∨
     t = Returned (np_sum (np_equal mask 255), Some f)).

(** Either every worker is still before line 60, none of them about to
    create a directory that exists, or some worker is a winner. *)
Definition one_counted `{Collaborators} (output_dir : string)
  (image_paths : list string) (p : pool) : Prop :=
  Forall2 (tracks output_dir) image_paths (futures p) ∧
  ((Forall early (futures p) ∧
    (output_dir ∈ existing (env p) →
     Forall (λ t, ¬ creating t) (futures p))) ∨
   ∃ k t, futures p !! k = Some t ∧ winner output_dir image_paths t).

(** The array with the order of its channels reversed, [image[:, :, ::-1]]:
    the same picture read as RGB instead of BGR. *)
Definition reverse_channels (image : ndarray3) : ndarray3 :=
  {| shape0 := shape0 image; shape1 := shape1 image;
     shape2 := shape2 image;
     items3 :=
       map (λ n, default 0%Z
                   (items3 image !!
                      (n / shape2 image * shape2 image
                       + (shape2 image - 1 - n mod shape2 image))))
           (seq 0 (length (items3 image))) |}.

(** The script's entry point, lines 129-138, given what [os.listdir]
    answers. *)
Definition main `{Collaborators} (schedule : list nat)
  (os_listdir : string → result (list string)) : M Z :=
  let image_dir := "Online-test"%string in
  let output_dir := "outputs"%string in
  entries ← lift (os_listdir image_dir);
  process_images_in_parallel schedule (main_image_paths image_dir entries)
    output_dir.


(** ** Concrete scenarios *)

(** Two pixels whose channels differ: the first is on, the second off. *)
Definition tinted_image : ndarray3 :=
  Ndarray3 1 2 3 [201; 255; 230; 10; 220; 250]%Z.

(** A 1x3 image whose three pixels are all on. *)
Definition bright_image : ndarray3 :=
  Ndarray3 1 3 3 [255; 255; 255; 201; 201; 201; 255; 201; 255]%Z.

(** A pixel with a single channel on the threshold. *)
Definition boundary_image : ndarray3 :=
  Ndarray3 1 1 3 [255; 255; 200]%Z.

Definition empty_world : world :=
  {| existing := ∅; written := ∅; log := [] |}.

(** Three readable files in a Windows folder; writing always works. *)
Definition sample_folder : Collaborators := {|
  imread := λ image_path,
    if String.eqb image_path "Online-test\a.png" then Ok (Some bright_image)
    else if String.eqb image_path "Online-test\b.jpg"
         then Ok (Some scenario_image)
    else if String.eqb image_path "Online-test\c.png"
         then Ok (Some boundary_image)
         else Ok None;
  imwrite := λ _ _, Ok true;
  makedirs_fault := λ _, None;
  os_path_join := λ a b, a +:+ "\" +:+ b
|}.

(** The same files where the output directory cannot be created. *)
Definition no_permission : Collaborators := {|
  imread := @imread sample_folder;
  imwrite := λ _ _, Ok true;
  makedirs_fault := λ _, Some (OSError "Permission denied");
  os_path_join := @os_path_join sample_folder
|}.

(** A disk on which [cv2.imwrite] stores nothing and reports it. *)
Definition failing_disk : Collaborators := {|
  imread := @imread sample_folder;
  imwrite := λ _ _, Ok false;
  makedirs_fault := λ _, None;
  os_path_join := @os_path_join sample_folder
|}.


(** The number of pixel positions whose three channels all exceed 200. *)
Definition count_on (image : ndarray3) : Z :=
  Z.of_nat (length (List.filter (pixel_on image)
                      (positions (shape0 image) (shape1 image)))).

(** * Properties of the mask loop *)

Example scenario_mask :
  build_mask scenario_image = Ok (Ndarray2 2 2 [255; 0; 255; 0]%Z).
Proof. reflexivity. Qed.

Section Loop.
Variable image : ndarray3.
Hypothesis Hwf : wf_image image = true.

Local Abbreviation H := (shape0 image).
Local Abbreviation W := (shape1 image).

Lemma wf_image_channels : shape2 image = 3.
Proof using Hwf.
  unfold wf_image in Hwf. rewrite !andb_true_iff in Hwf.
  destruct Hwf as [[Hc _] _]. by apply Nat.eqb_eq in Hc.
Qed.

Lemma wf_image_length : length (items3 image) = H * W * 3.
Proof using Hwf.
  pose proof wf_image_channels as Hc.
  unfold wf_image in Hwf. rewrite !andb_true_iff in Hwf.
  destruct Hwf as [[_ Hl] _]. apply Nat.eqb_eq in Hl.
  rewrite Hl, Hc. reflexivity.
Qed.

Lemma wf_image_uint8 k v :
  items3 image !! k = Some v → (0 ≤ v < 256)%Z.
Proof using Hwf.
  intros Hk. unfold wf_image in Hwf. rewrite !andb_true_iff in Hwf.
  destruct Hwf as [_ Hall]. rewrite forallb_forall in Hall.
  assert (Hin : In v (items3 image)).
  { apply list_elem_of_In. by eapply list_elem_of_lookup_2. }
  specialize (Hall v Hin). unfold uint8 in Hall.
  apply andb_true_iff in Hall. lia.
Qed.

Lemma flat_index_lt i j : i < H → j < W → i * W + j < H * W.
Proof. nia. Qed.

Lemma getitem3_wf i j c :
  i < H → j < W → c < 3 →
  getitem3 image i j c = Ok (chan image (i * W + j) c).
Proof using Hwf.
  intros Hi Hj Hc. unfold getitem3, chan.
  rewrite wf_image_channels.
  apply Nat.ltb_lt in Hi as Hi'. apply Nat.ltb_lt in Hj as Hj'.
  apply Nat.ltb_lt in Hc as Hc'. rewrite Hi', Hj', Hc'. simpl.
  pose proof (flat_index_lt i j Hi Hj) as Hlt.
  destruct (items3 image !! ((i * W + j) * 3 + c)) as [v|] eqn:Hv.
  - reflexivity.
  - apply lookup_ge_None in Hv. rewrite wf_image_length in Hv. lia.
Qed.

Lemma all_above_wf i j :
  i < H → j < W → all_above image i j = Ok (on_at image (i * W + j)).
Proof using Hwf.
  intros Hi Hj. unfold all_above, on_at.
  rewrite !getitem3_wf by lia. simpl.
  destruct (200 <? chan image (i * W + j) 0)%Z; simpl; [|done].
  destruct (200 <? chan image (i * W + j) 1)%Z; simpl; done.
Qed.

Lemma visited_next n :
  n < H * W →
  <[n := mask_value (on_at image n)]> (visited image n)
  = visited image (S n).
Proof.
  intros Hn. unfold visited.
  rewrite insert_app_r_alt by (rewrite length_map, length_seq; lia).
  rewrite length_map, length_seq, Nat.sub_diag.
  replace (H * W - n) with (S (H * W - S n)) by lia.
  rewrite seq_S, map_app, <- app_assoc. reflexivity.
Qed.

Lemma visited_off n :
  n < H * W → on_at image n = false → visited image n = visited image (S n).
Proof.
  intros Hn Hoff. rewrite <- visited_next by done.
  rewrite Hoff. symmetry. apply list_insert_id.
  unfold visited.
  rewrite lookup_app_r by (rewrite length_map, length_seq; lia).
  rewrite length_map, length_seq, Nat.sub_diag.
  replace (H * W - n) with (S (H * W - S n)) by lia. reflexivity.
Qed.

Lemma mask_pixel_visited i j :
  i < H → j < W →
  mask_pixel image i j (Ndarray2 H W (visited image (i * W + j)))
  = Ok (Ndarray2 H W (visited image (S (i * W + j)))).
Proof using Hwf.
  intros Hi Hj. unfold mask_pixel. rewrite all_above_wf by done. simpl.
  pose proof (flat_index_lt i j Hi Hj) as Hlt.
  destruct (on_at image (i * W + j)) eqn:Hon.
  - unfold setitem2. simpl.
    apply Nat.ltb_lt in Hi as Hi'. apply Nat.ltb_lt in Hj as Hj'.
    rewrite Hi', Hj'. simpl. f_equal. f_equal.
    rewrite <- visited_next by done. by rewrite Hon.
  - f_equal. f_equal. by apply visited_off.
Qed.

Lemma mask_row_from i d : ∀ j,
  i < H → j + d ≤ W →
  for_each (seq j d) (λ j, mask_pixel image i j)
    (Ndarray2 H W (visited image (i * W + j)))
  = Ok (Ndarray2 H W (visited image (i * W + j + d))).
Proof using Hwf.
  induction d as [|d IH]; intros j Hi Hd; simpl.
  - by rewrite Nat.add_0_r.
  - rewrite mask_pixel_visited by lia. simpl.
    replace (S (i * W + j)) with (i * W + S j) by lia.
    rewrite IH by lia. do 3 f_equal. lia.
Qed.

Lemma mask_row_visited i :
  i < H →
  mask_row image i (Ndarray2 H W (visited image (i * W)))
  = Ok (Ndarray2 H W (visited image (S i * W))).
Proof using Hwf.
  intros Hi. unfold mask_row, range. fold W.
  pose proof (mask_row_from i W 0 Hi) as Hrow.
  rewrite Nat.add_0_r in Hrow. rewrite Hrow by lia.
  do 3 f_equal. lia.
Qed.

Lemma mask_rows_from d : ∀ i,
  i + d ≤ H →
  for_each (seq i d) (λ i, mask_row image i)
    (Ndarray2 H W (visited image (i * W)))
  = Ok (Ndarray2 H W (visited image ((i + d) * W))).
Proof using Hwf.
  induction d as [|d IH]; intros i Hd; simpl.
  - by rewrite Nat.add_0_r.
  - rewrite mask_row_visited by lia. simpl.
    rewrite IH by lia. do 3 f_equal. lia.
Qed.

(** The loop ends, without an exception, on the grid that holds
    [mask_value (on_at image k)] at every flat position [k]. *)
Lemma build_mask_visited :
  build_mask image
  = Ok (Ndarray2 H W (map (λ k, mask_value (on_at image k)) (seq 0 (H * W)))).
Proof using Hwf.
  unfold build_mask, range, np_zeros.
  pose proof (mask_rows_from H 0) as Hrows. simpl in Hrows.
  unfold visited in Hrows at 1. simpl in Hrows.
  rewrite Nat.sub_0_r in Hrows. rewrite Hrows by lia.
  unfold visited. rewrite Nat.sub_diag. simpl.
  by rewrite app_nil_r.
Qed.
End Loop.

(** ** Reading the finished mask *)

Lemma getitem2_grid (h w : nat) (f : nat → Z) (i j : nat) :
  i < h → j < w →
  getitem2 (Ndarray2 h w (map f (seq 0 (h * w)))) i j = Ok (f (i * w + j)).
Proof.
  intros Hi Hj. unfold getitem2. simpl.
  apply Nat.ltb_lt in Hi as Hi'. apply Nat.ltb_lt in Hj as Hj'.
  rewrite Hi', Hj'. simpl.
  assert (Hlt : i * w + j < h * w) by nia.
  change (map f (seq 0 (h * w))) with (f <$> seq 0 (h * w)).
  rewrite list_lookup_fmap, lookup_seq_lt by done. reflexivity.
Qed.

(** A pixel position read through [getitem3] is the flat position read
    through [chan]. *)
Lemma pixel_on_flat (image : ndarray3) (i j : nat) :
  wf_image image = true → i < shape0 image → j < shape1 image →
  pixel_on image (i, j) = on_at image (i * shape1 image + j).
Proof.
  intros Hwf Hi Hj. unfold pixel_on, exceeds, on_at. simpl.
  by rewrite !(getitem3_wf image Hwf) by lia.
Qed.

(** ** Counting *)

Lemma np_sum_nonneg (bs : list bool) : (0 ≤ np_sum bs)%Z.
Proof. induction bs as [|[] bs IH]; simpl; lia. Qed.

Lemma np_sum_le_length (bs : list bool) : (np_sum bs ≤ Z.of_nat (length bs))%Z.
Proof. induction bs as [|[] bs IH]; simpl length; simpl np_sum; lia. Qed.

Lemma np_sum_mask_values (g : nat → bool) (ks : list nat) :
  np_sum (map (λ x, Z.eqb x 255) (map (λ k, mask_value (g k)) ks))
  = Z.of_nat (length (List.filter g ks)).
Proof.
  induction ks as [|k ks IH]; [done|].
  simpl map. simpl np_sum. simpl List.filter. rewrite IH.
  destruct (g k); simpl; lia.
Qed.

Lemma np_sum_where (bs : list bool) :
  np_sum (map (λ x, Z.eqb x 255) (np_where bs 255 0)) = np_sum bs.
Proof. induction bs as [|[] bs IH]; simpl; [done| |]; by rewrite IH. Qed.

Lemma positions_flat (h w : nat) :
  map (λ ij : nat * nat, ij.1 * w + ij.2) (positions h w) = seq 0 (h * w).
Proof.
  unfold positions.
  assert (Hgen : ∀ n a,
    map (λ ij : nat * nat, ij.1 * w + ij.2)
        (i ← seq a n; (λ j, (i, j)) <$> seq 0 w) = seq (a * w) (n * w)).
  { induction n as [|n IH]; intros a; [done|].
    simpl seq. rewrite bind_cons, map_app, IH.
    replace (S n * w) with (w + n * w) by lia. rewrite seq_app.
    f_equal; [|f_equal; lia].
    change (map ?f (?g <$> ?l)) with (f <$> (g <$> l)).
    rewrite <- list_fmap_compose.
    trans (Nat.add (a * w) <$> seq 0 w); [by apply list_fmap_ext|].
    rewrite fmap_add_seq. f_equal. lia. }
  apply (Hgen h 0).
Qed.

Lemma positions_in_range (h w i j : nat) :
  In (i, j) (positions h w) → i < h ∧ j < w.
Proof.
  intros Hin. apply list_elem_of_In in Hin. unfold positions in Hin.
  apply list_elem_of_bind in Hin as (i' & Hj & Hi).
  apply list_elem_of_fmap in Hj as (j' & Heq & Hj).
  injection Heq as -> ->.
  apply elem_of_seq in Hi. apply elem_of_seq in Hj. lia.
Qed.

Lemma filter_length_map {A B} (f : A → B) (g : B → bool) (l : list A) :
  length (List.filter g (map f l)) = length (List.filter (λ x, g (f x)) l).
Proof.
  induction l as [|x l IH]; [done|]. simpl.
  destruct (g (f x)); simpl; by rewrite IH.
Qed.

Lemma count_positions (image : ndarray3) :
  wf_image image = true →
  length (List.filter (on_at image) (seq 0 (shape0 image * shape1 image)))
  = length (List.filter (pixel_on image)
              (positions (shape0 image) (shape1 image))).
Proof.
  intros Hwf. rewrite <- positions_flat, filter_length_map. f_equal.
  apply List.filter_ext_in. intros [i j] Hin.
  apply positions_in_range in Hin as [Hi Hj].
  symmetry. by apply pixel_on_flat.
Qed.

Lemma length_positions (h w : nat) : length (positions h w) = h * w.
Proof.
  rewrite <- (length_map (λ ij : nat * nat, ij.1 * w + ij.2)).
  by rewrite positions_flat, length_seq.
Qed.

(** ** The mask keeps its shape whatever the image *)

Lemma for_each_invariant {A S} (I : S → Prop) (body : A → S → result S) :
  (∀ x s s', I s → body x s = Ok s' → I s') →
  ∀ xs s s', I s → for_each xs body s = Ok s' → I s'.
Proof.
  intros Hbody xs. induction xs as [|x xs IH]; intros s s' Hs Hrun; simpl in Hrun.
  - by injection Hrun as <-.
  - destruct (body x s) as [s1|e] eqn:Hx; simpl in Hrun; [|done].
    eapply IH; [|exact Hrun]. by eapply Hbody.
Qed.

Lemma mask_pixel_shaped (image : ndarray3) (h w i j : nat) (m m' : ndarray2) :
  shaped h w m → mask_pixel image i j m = Ok m' → shaped h w m'.
Proof.
  intros (H0 & H1 & Hl). unfold mask_pixel.
  destruct (all_above image i j) as [[]|e]; simpl; [| |done].
  - unfold setitem2. destruct ((i <? mshape0 m) && (j <? mshape1 m)); [|done].
    intros [= <-]. unfold shaped. simpl. by rewrite length_insert.
  - by intros [= <-].
Qed.

Lemma build_mask_shaped (image : ndarray3) (mask : ndarray2) :
  build_mask image = Ok mask → shaped (shape0 image) (shape1 image) mask.
Proof.
  unfold build_mask.
  apply (for_each_invariant (shaped (shape0 image) (shape1 image))).
  - intros i s s' Hs. unfold mask_row.
    apply (for_each_invariant (shaped (shape0 image) (shape1 image))); [|done].
    intros j m m' Hm. by apply mask_pixel_shaped.
  - unfold shaped, np_zeros. simpl. by rewrite length_replicate.
Qed.

Lemma mask_count_bounds (image : ndarray3) (mask : ndarray2) :
  build_mask image = Ok mask →
  (0 ≤ np_sum (np_equal mask 255) ≤ Z.of_nat (shape0 image * shape1 image))%Z.
Proof.
  intros Hm. apply build_mask_shaped in Hm as (_ & _ & Hl).
  split; [apply np_sum_nonneg|].
  etrans; [apply np_sum_le_length|].
  unfold np_equal. rewrite length_map, Hl. lia.
Qed.

(** ** The whole-grid formulation gives the same grid *)

Lemma vectorized_cond_on_at (image : ndarray3) :
  wf_image image = true →
  vectorized_cond image
  = map (on_at image) (seq 0 (shape0 image * shape1 image)).
Proof.
  intros Hwf. unfold vectorized_cond, np_logical_and, np_greater_channel.
  rewrite (wf_image_channels image Hwf).
  generalize (seq 0 (shape0 image * shape1 image)). intros ks.
  induction ks as [|k ks IH]; [done|]. simpl. rewrite IH. done.
Qed.

Lemma vectorized_mask_grid (image : ndarray3) :
  wf_image image = true →
  vectorized_mask image
  = Ndarray2 (shape0 image) (shape1 image)
      (map (λ k, mask_value (on_at image k))
           (seq 0 (shape0 image * shape1 image))).
Proof.
  intros Hwf. unfold vectorized_mask. rewrite vectorized_cond_on_at by done.
  unfold np_where. by rewrite map_map.
Qed.

(** * Properties of [process_image] *)

(** Unfolds the effectful combinators so that a run can be followed
    primitive by primitive. *)
Ltac run_M :=
  unfold process_image, process_image_body, run_task, step, step_body,
    try_except, cv2_imread, cv2_imwrite,
    os_path_exists, os_makedirs, logging, lift, mbind, mret, M_bind, M_ret
    in *; simpl in *.

Lemma bind_Ok_inv {A B} (m : M A) (k : A → M B) (w w' : world) (b : B) :
  (m ≫= k) w = (Ok b, w') → ∃ a w1, m w = (Ok a, w1) ∧ k a w1 = (Ok b, w').
Proof.
  unfold mbind, M_bind. destruct (m w) as [[a|e] w1]; [by eauto|done].
Qed.

Ltac inv_bind Hrun :=
  let Hfirst := fresh "Hfirst" in
  apply bind_Ok_inv in Hrun as (? & ? & Hfirst & Hrun).

Section ProcessImage.
Context `{Collaborators}.

Lemma cv2_imwrite_Ok_inv filename mask w stored w' :
  cv2_imwrite filename mask w = (Ok stored, w') →
  imwrite filename mask = Ok stored ∧
  (stored = true → written w' !! filename = Some mask).
Proof.
  unfold cv2_imwrite. destruct (imwrite filename mask) as [[]|e]; [| |done].
  - intros [= <- <-]. split; [done|]. intros _. apply lookup_insert_eq.
  - intros [= <- <-]. by split.
Qed.

Lemma logging_written r w u w' :
  logging r w = (Ok u, w') → written w' = written w.
Proof. unfold logging. by intros [= _ <-]. Qed.

Lemma process_image_returns (image_path output_dir : string) (w : world) :
  ∃ r w', process_image image_path output_dir w = (Ok r, w').
Proof.
  unfold process_image, try_except.
  destruct (process_image_body image_path output_dir w) as [[r|e] w'];
    [by eauto|].
  run_M. eauto.
Qed.

Lemma process_image_success_inv image_path output_dir w c f w' :
  process_image image_path output_dir w = (Ok (c, Some f), w') →
  ∃ image mask stored,
    imread image_path = Ok (Some image) ∧
    build_mask image = Ok mask ∧
    make_mask_filename output_dir image_path = Ok f ∧
    imwrite f mask = Ok stored ∧
    c = np_sum (np_equal mask 255) ∧
    (stored = true → written w' !! f = Some mask).
Proof.
  unfold process_image, try_except.
  destruct (process_image_body image_path output_dir w) as [[r|e] w1]
    eqn:Hrun; [|by run_M].
  intros [= -> ->]. unfold process_image_body in Hrun.
  inv_bind Hrun. unfold cv2_imread, lift in Hfirst.
  injection Hfirst as Hread <-.
  destruct x as [image|]; [|by run_M].
  inv_bind Hrun. unfold lift in Hfirst. injection Hfirst as Hmask <-.
  inv_bind Hrun. clear Hfirst.
  inv_bind Hrun. clear Hfirst.
  inv_bind Hrun. unfold lift in Hfirst. injection Hfirst as Hname <-.
  inv_bind Hrun. apply cv2_imwrite_Ok_inv in Hfirst as [Hwrite Hstored].
  inv_bind Hrun. apply logging_written in Hfirst.
  unfold mret, M_ret in Hrun. injection Hrun as <- <- <-.
  eexists image, _, _. split_and!; try done.
  intros Hs. rewrite Hfirst. by apply Hstored.
Qed.

Lemma process_image_failure_zero image_path output_dir w c w' :
  process_image image_path output_dir w = (Ok (c, None), w') → c = 0%Z.
Proof.
  unfold process_image, try_except.
  destruct (process_image_body image_path output_dir w) as [[r|e] w1]
    eqn:Hrun; [|by run_M; intros [= <-]].
  intros [= -> ->]. unfold process_image_body in Hrun.
  inv_bind Hrun. clear Hfirst.
  destruct x as [image|]; [|by run_M; injection Hrun as <-].
  do 6 (inv_bind Hrun; clear Hfirst).
  by unfold mret, M_ret in Hrun.
Qed.

(** ** The mask and the count of one image *)

Lemma on_at_iff (image : ndarray3) (k : nat) :
  on_at image k = true ↔
  (200 < chan image k 0 ∧ 200 < chan image k 1 ∧ 200 < chan image k 2)%Z.
Proof. unfold on_at. rewrite !andb_true_iff, !Z.ltb_lt. tauto. Qed.

Lemma step_submitted_loaded image_path output_dir w image mask :
  imread image_path = Ok (Some image) → build_mask image = Ok mask →
  step (Submitted image_path output_dir) w
  = (Ok (Masked image_path output_dir mask), w).
Proof. intros Hread Hmask. run_M. rewrite Hread. simpl. by rewrite Hmask. Qed.

(** C1.  Once [process_image] has loaded an image, the mask it builds holds
    255 at a position exactly when the three channels there are all strictly
    above 200, and 0 otherwise; a channel equal to 200 leaves the pixel 0. *)
Theorem mask_on_iff_all_channels_above image_path output_dir w image :
  imread image_path = Ok (Some image) → wf_image image = true →
  ∃ mask,
    build_mask image = Ok mask ∧
    step (Submitted image_path output_dir) w
      = (Ok (Masked image_path output_dir mask), w) ∧
    ∀ i j, i < shape0 image → j < shape1 image →
      ∃ v0 v1 v2 v,
        getitem3 image i j 0 = Ok v0 ∧ getitem3 image i j 1 = Ok v1 ∧
        getitem3 image i j 2 = Ok v2 ∧ getitem2 mask i j = Ok v ∧
        (v = 255 ↔ 200 < v0 ∧ 200 < v1 ∧ 200 < v2)%Z ∧
        (¬ (200 < v0 ∧ 200 < v1 ∧ 200 < v2)%Z → v = 0%Z) ∧
        (v0 = 200 ∨ v1 = 200 ∨ v2 = 200 → v = 0)%Z.
Proof.
  intros Hread Hwf. eexists. split; [by apply build_mask_visited|].
  split; [apply (step_submitted_loaded _ _ _ image);
          [done|by apply build_mask_visited]|].
  intros i j Hi Hj.
  exists (chan image (i * shape1 image + j) 0),
         (chan image (i * shape1 image + j) 1),
         (chan image (i * shape1 image + j) 2),
         (mask_value (on_at image (i * shape1 image + j))).
  rewrite !(getitem3_wf image Hwf) by lia.
  rewrite getitem2_grid by done.
  split_and!; try done.
  - destruct (on_at image (i * shape1 image + j)) eqn:Hon; simpl.
    + apply on_at_iff in Hon. tauto.
    + split; [done|]. intros Hall.
      apply (proj2 (on_at_iff _ _)) in Hall. congruence.
  - intros Hnot. destruct (on_at image (i * shape1 image + j)) eqn:Hon; [|done].
    apply on_at_iff in Hon. tauto.
  - intros Heq. destruct (on_at image (i * shape1 image + j)) eqn:Hon; [|done].
    apply on_at_iff in Hon. lia.
Qed.

(** C7.  The mask built for a loaded image has the image's height and
    width and holds nothing but 0 and 255. *)
Theorem mask_same_shape_and_binary image_path output_dir w image :
  imread image_path = Ok (Some image) → wf_image image = true →
  ∃ mask,
    build_mask image = Ok mask ∧
    step (Submitted image_path output_dir) w
      = (Ok (Masked image_path output_dir mask), w) ∧
    mshape0 mask = shape0 image ∧ mshape1 mask = shape1 image ∧
    length (items2 mask) = shape0 image * shape1 image ∧
    Forall (λ v, v = 0%Z ∨ v = 255%Z) (items2 mask) ∧
    ∀ i j, i < shape0 image → j < shape1 image →
      getitem2 mask i j = Ok 0%Z ∨ getitem2 mask i j = Ok 255%Z.
Proof.
  intros Hread Hwf. eexists. split; [by apply build_mask_visited|].
  split; [apply (step_submitted_loaded _ _ _ image);
          [done|by apply build_mask_visited]|].
  simpl. split_and!; try done.
  - by rewrite length_map, length_seq.
  - apply Forall_forall. intros v Hv. apply list_elem_of_In in Hv.
    apply in_map_iff in Hv as (k & <- & _).
    destruct (on_at image k); simpl; auto.
  - intros i j Hi Hj. rewrite getitem2_grid by done.
    destruct (on_at image (i * shape1 image + j)); simpl; auto.
Qed.

(** C8.  The scalar double loop and the whole-grid formulation give the same
    mask grid and the same count of on pixels. *)
Theorem scalar_loop_equals_vectorized (image : ndarray3) :
  wf_image image = true →
  ∃ mask,
    build_mask image = Ok mask ∧
    mask = vectorized_mask image ∧
    np_sum (np_equal mask 255) = np_sum (vectorized_cond image).
Proof.
  intros Hwf. exists (vectorized_mask image). split_and!; [|done|].
  - rewrite vectorized_mask_grid by done. by apply build_mask_visited.
  - unfold np_equal, vectorized_mask. simpl. apply np_sum_where.
Qed.

Lemma on_at_all_low (image : ndarray3) (k : nat) :
  Forall (λ v, (v ≤ 200)%Z) (items3 image) → on_at image k = false.
Proof.
  intros Hlow. unfold on_at, chan.
  destruct (items3 image !! (k * 3 + 0)) as [v|] eqn:Hv; simpl; [|done].
  rewrite Forall_forall in Hlow.
  assert (v ≤ 200)%Z as Hle by (apply Hlow; by eapply list_elem_of_lookup_2).
  apply Z.ltb_ge in Hle. by rewrite Hle.
Qed.

Lemma on_at_all_255 (image : ndarray3) (k : nat) :
  wf_image image = true →
  Forall (λ v, v = 255%Z) (items3 image) →
  k < shape0 image * shape1 image → on_at image k = true.
Proof.
  intros Hwf Hall Hk. rewrite Forall_forall in Hall.
  assert (Hc : ∀ c, c < 3 → chan image k c = 255%Z).
  { intros c Hc. unfold chan.
    destruct (items3 image !! (k * 3 + c)) as [v|] eqn:Hv; simpl.
    - apply Hall. by eapply list_elem_of_lookup_2.
    - apply lookup_ge_None in Hv. rewrite (wf_image_length image Hwf) in Hv.
      lia. }
  unfold on_at. by rewrite !Hc by lia.
Qed.

Lemma filter_none {A} (g : A → bool) (l : list A) :
  (∀ x, In x l → g x = false) → List.filter g l = [].
Proof.
  induction l as [|x l IH]; intros Hg; [done|]. simpl.
  rewrite (Hg x) by (by left). apply IH. intros y Hy. apply Hg. by right.
Qed.

Lemma filter_all {A} (g : A → bool) (l : list A) :
  (∀ x, In x l → g x = true) → List.filter g l = l.
Proof.
  induction l as [|x l IH]; intros Hg; [done|]. simpl.
  rewrite (Hg x) by (by left). f_equal. apply IH. intros y Hy. apply Hg.
  by right.
Qed.

(** The count line 69 computes on the mask of a well-formed image. *)
Lemma mask_count_is_count_on (image : ndarray3) (mask : ndarray2) :
  wf_image image = true → build_mask image = Ok mask →
  np_sum (np_equal mask 255) = count_on image.
Proof.
  intros Hwf Hmask. rewrite build_mask_visited in Hmask by done.
  injection Hmask as <-. unfold np_equal, count_on. simpl.
  rewrite np_sum_mask_values. f_equal. by apply count_positions.
Qed.

Lemma count_on_all_low (image : ndarray3) :
  wf_image image = true →
  Forall (λ v, (v ≤ 200)%Z) (items3 image) → count_on image = 0%Z.
Proof.
  intros Hwf Hlow. unfold count_on. rewrite <- count_positions by done.
  rewrite filter_none; [done|]. intros k _. by apply on_at_all_low.
Qed.

Lemma count_on_all_255 (image : ndarray3) :
  wf_image image = true →
  Forall (λ v, v = 255%Z) (items3 image) →
  count_on image = Z.of_nat (shape1 image * shape0 image).
Proof.
  intros Hwf Hall. unfold count_on. rewrite <- count_positions by done.
  rewrite filter_all.
  - rewrite length_seq. f_equal. lia.
  - intros k Hk. apply in_seq in Hk. apply on_at_all_255; [done..|lia].
Qed.

(** The per-image half of C10: the count never leaves [0, height*width]. *)
Lemma process_image_count_bounds image_path output_dir w image c f w' :
  imread image_path = Ok (Some image) →
  process_image image_path output_dir w = (Ok (c, f), w') →
  (0 ≤ c ≤ Z.of_nat (shape0 image * shape1 image))%Z.
Proof.
  intros Hread Hrun. destruct f as [mask_filename|].
  - apply process_image_success_inv in Hrun
      as (image' & mask & stored & Hread' & Hmask & _ & _ & -> & _).
    rewrite Hread in Hread'. injection Hread' as <-.
    by apply mask_count_bounds.
  - apply process_image_failure_zero in Hrun as ->. lia.
Qed.

(** ** Exceptions stay inside [process_image] *)

Lemma process_image_handler image_path output_dir w :
  process_image image_path output_dir w
  = match process_image_body image_path output_dir w with
    | (Ok r, w') => (Ok r, w')
    | (Raise e, w') => (Ok (0%Z, None), log_error image_path e w')
    end.
Proof.
  unfold process_image, try_except.
  by destruct (process_image_body image_path output_dir w) as [[r|e] w'].
Qed.

(** C4.  [process_image] always returns a value, never an exception: an
    empty load gives (0, absent) after a warning, and an exception raised
    while loading, masking, creating the directory or writing is caught,
    logged with the image path, and turned into (0, absent). *)
Theorem process_image_never_raises image_path output_dir w :
  (∃ r w', process_image image_path output_dir w = (Ok r, w')) ∧
  (∀ e w1, process_image_body image_path output_dir w = (Raise e, w1) →
     process_image image_path output_dir w
     = (Ok (0%Z, None), log_error image_path e w1)) ∧
  (imread image_path = Ok None →
     process_image image_path output_dir w
     = (Ok (0%Z, None),
        {| existing := existing w; written := written w;
           log := log w ++ [Warning_failed_to_read image_path] |})) ∧
  (∀ e, imread image_path = Raise e →
     process_image image_path output_dir w
     = (Ok (0%Z, None), log_error image_path e w)) ∧
  (∀ image e, imread image_path = Ok (Some image) →
     build_mask image = Raise e →
     process_image image_path output_dir w
     = (Ok (0%Z, None), log_error image_path e w)) ∧
  (∀ image mask e, imread image_path = Ok (Some image) →
     build_mask image = Ok mask →
     output_dir ∉ existing w → makedirs_fault output_dir = Some e →
     process_image image_path output_dir w
     = (Ok (0%Z, None), log_error image_path e w)) ∧
  (∀ image mask mask_filename e, imread image_path = Ok (Some image) →
     build_mask image = Ok mask →
     output_dir ∈ existing w →
     make_mask_filename output_dir image_path = Ok mask_filename →
     imwrite mask_filename mask = Raise e →
     process_image image_path output_dir w
     = (Ok (0%Z, None), log_error image_path e w)).
Proof.
  split_and!.
  - apply process_image_returns.
  - intros e w1 Hbody. by rewrite process_image_handler, Hbody.
  - intros Hread. run_M. by rewrite Hread.
  - intros e Hread. run_M. by rewrite Hread.
  - intros image e Hread Hmask. run_M. rewrite Hread. simpl.
    by rewrite Hmask.
  - intros image mask e Hread Hmask Hdir Hfault. run_M. rewrite Hread. simpl.
    rewrite Hmask. rewrite bool_decide_eq_false_2 by done. simpl.
    rewrite bool_decide_eq_false_2 by done. by rewrite Hfault.
  - intros image mask mask_filename e Hread Hmask Hdir Hname Hwrite. run_M.
    rewrite Hread. simpl. rewrite Hmask.
    rewrite bool_decide_eq_true_2 by done. simpl.
    rewrite Hname, Hwrite. done.
Qed.

(** ** A worker left alone runs [process_image] *)

Lemma run_task_process_image image_path output_dir w :
  ∃ r w',
    process_image image_path output_dir w = (Ok r, w') ∧
    run_task (Submitted image_path output_dir) w = (Ok (Returned r), w').
Proof.
  run_M.
  destruct (imread image_path) as [[image|]|e]; simpl; [|by eauto..].
  destruct (build_mask image) as [mask|e]; simpl; [|by eauto].
  destruct (bool_decide (output_dir ∈ existing w)) eqn:Hdir; simpl.
  - destruct (make_mask_filename output_dir image_path) as [f|e]; simpl;
      [|by eauto].
    destruct (imwrite f mask) as [[]|e]; simpl; by eauto.
  - rewrite Hdir. destruct (makedirs_fault output_dir); simpl; [by eauto|].
    destruct (make_mask_filename output_dir image_path) as [f|e]; simpl;
      [|by eauto].
    destruct (imwrite f mask) as [[]|e]; simpl; by eauto.
Qed.

End ProcessImage.

(** * Properties of the file names *)

Lemma string_length_append (s t : string) :
  String.length (s +:+ t) = String.length s + String.length t.
Proof. induction s as [|c s IH]; simpl; [done|]. by rewrite IH. Qed.

Lemma str_lower_append (s t : string) :
  str_lower (s +:+ t) = str_lower s +:+ str_lower t.
Proof. induction s as [|c s IH]; simpl; [done|]. by rewrite IH. Qed.

Lemma str_lower_length (s : string) :
  String.length (str_lower s) = String.length s.
Proof. induction s as [|c s IH]; simpl; [done|]. by rewrite IH. Qed.

Lemma substring_last (s : string) (c : ascii) :
  substring (String.length s) 1 (s +:+ String c EmptyString)
  = String c EmptyString.
Proof. induction s as [|a s IH]; simpl; [done|]. exact IH. Qed.

Lemma string_snoc (f : string) :
  f ≠ EmptyString → ∃ s c, f = s +:+ String c EmptyString.
Proof.
  induction f as [|a f IH]; intros Hne; [done|].
  destruct f as [|b f].
  - by exists EmptyString, a.
  - destruct IH as (s & c & Hs); [done|].
    exists (String a s), c. simpl. by rewrite Hs.
Qed.

Lemma str_endswith_snoc (s : string) (c d : ascii) :
  str_endswith (s +:+ String c EmptyString) (String d EmptyString)
  = Ascii.eqb c d.
Proof.
  unfold str_endswith. rewrite string_length_append.
  change (String.length (String d EmptyString)) with 1.
  change (String.length (String c EmptyString)) with 1.
  replace (String.length s + 1 - 1) with (String.length s) by lia.
  rewrite substring_last.
  replace (String.length s + 1) with (S (String.length s)) by lia.
  simpl. by destruct (Ascii.eqb c d).
Qed.

Lemma ascii_lower_g (c : ascii) :
  Ascii.eqb (ascii_lower c) "g" = true ↔ c = "g"%char ∨ c = "G"%char.
Proof.
  split.
  - destruct c as [[] [] [] [] [] [] [] []]; vm_compute; intros Hc;
      try discriminate; auto.
  - by intros [-> | ->].
Qed.

Lemma selected_iff (f : string) :
  selected f = true ↔
  ∃ s c, f = s +:+ String c EmptyString ∧ (c = "g"%char ∨ c = "G"%char).
Proof.
  unfold selected. split.
  - intros Hsel. destruct (decide (f = EmptyString)) as [->|Hne]; [done|].
    destruct (string_snoc f Hne) as (s & c & ->). exists s, c.
    split; [done|]. apply ascii_lower_g.
    rewrite str_lower_append in Hsel.
    change (str_lower (String c EmptyString))
      with (String (ascii_lower c) EmptyString) in Hsel.
    by rewrite str_endswith_snoc in Hsel.
  - intros (s & c & -> & Hc).
    rewrite str_lower_append.
    change (str_lower (String c EmptyString))
      with (String (ascii_lower c) EmptyString).
    rewrite str_endswith_snoc. by apply ascii_lower_g.
Qed.

Lemma string_append_assoc (s t u : string) :
  (s +:+ t) +:+ u = s +:+ (t +:+ u).
Proof.
  induction s as [|c s IH]; [done|].
  change (String c ((s +:+ t) +:+ u) = String c (s +:+ (t +:+ u))).
  by rewrite IH.
Qed.

Lemma selected_suffix (s t : string) (c : ascii) :
  selected (s +:+ (t +:+ String c EmptyString))
  = Ascii.eqb (ascii_lower c) "g".
Proof.
  unfold selected.
  rewrite <- string_append_assoc, str_lower_append.
  change (str_lower (String c EmptyString))
    with (String (ascii_lower c) EmptyString).
  apply str_endswith_snoc.
Qed.

Lemma str_split_nonempty (sep : ascii) (s : string) : str_split sep s ≠ [].
Proof.
  induction s as [|c s IH]; simpl; [done|].
  destruct (Ascii.eqb c sep); [done|]. by destruct (str_split sep s).
Qed.

Lemma str_split_append (sep : ascii) (a b : string) :
  str_split sep (a +:+ String sep b) = str_split sep a ++ str_split sep b.
Proof.
  induction a as [|c a IH]; simpl.
  - by rewrite Ascii.eqb_refl.
  - rewrite IH. destruct (Ascii.eqb c sep); [done|].
    pose proof (str_split_nonempty sep a).
    by destruct (str_split sep a).
Qed.

Lemma str_split_whole (sep : ascii) (s : string) :
  contains sep s = false → str_split sep s = [s].
Proof.
  induction s as [|c s IH]; simpl; [done|].
  intros [Hc Hs]%orb_false_iff. rewrite Hc, IH; done.
Qed.

(** A Windows path with one dot in the file name gets the stem the
    specification describes. *)
Lemma mask_stem_simple (dir name ext : string) :
  contains "\" name = false → contains "." name = false →
  contains "\" ext = false →
  mask_stem (dir +:+ String "\" (name +:+ String "." ext)) = Ok name.
Proof.
  intros Hname Hdot Hext. unfold mask_stem.
  rewrite str_split_append.
  assert (Hbase : contains "\" (name +:+ String "." ext) = false).
  { clear Hdot. induction name as [|c name IH]; simpl in *; [done|].
    apply orb_false_iff in Hname as [-> Hname]. by apply IH. }
  rewrite (str_split_whole _ _ Hbase).
  unfold getitem_last. rewrite last_snoc. simpl.
  rewrite str_split_append, (str_split_whole _ _ Hdot). done.
Qed.

Lemma contains_append (c : ascii) (s t : string) :
  contains c (s +:+ t) = contains c s || contains c t.
Proof.
  induction s as [|a s IH]; [done|].
  change (contains c (String a s +:+ t))
    with (Ascii.eqb a c || contains c (s +:+ t)).
  rewrite IH. simpl. by rewrite orb_assoc.
Qed.

Lemma spec_basename_after_backslash (dir base : string) :
  contains "/" base = false → contains "\" base = false →
  spec_basename (dir +:+ String "\" base) = base.
Proof.
  intros Hslash Hback. induction dir as [|c dir IH].
  - change (EmptyString +:+ String "\"%char base) with (String "\"%char base).
    simpl. by rewrite Hslash, Hback.
  - change (String c dir +:+ String "\"%char base)
      with (String c (dir +:+ String "\"%char base)).
    simpl. rewrite !contains_append. simpl.
    rewrite IH. by rewrite !orb_true_r.
Qed.

Lemma spec_drop_extension_last_dot (name ext : string) :
  contains "." ext = false →
  spec_drop_extension (name +:+ String "." ext) = name.
Proof.
  intros Hext. induction name as [|c name IH].
  - change (EmptyString +:+ String "."%char ext) with (String "."%char ext).
    simpl. by rewrite Hext.
  - change (String c name +:+ String "."%char ext)
      with (String c (name +:+ String "."%char ext)).
    simpl. rewrite contains_append. simpl. rewrite orb_true_r.
    by rewrite IH.
Qed.

(** For a Windows path whose file name has a single dot, line 63 finds the
    stem the specification describes. *)
Lemma mask_stem_meets_spec (dir name ext : string) :
  contains "\" name = false → contains "/" name = false →
  contains "." name = false →
  contains "\" ext = false → contains "/" ext = false →
  contains "." ext = false →
  mask_stem (dir +:+ String "\" (name +:+ String "." ext))
  = Ok (spec_stem (dir +:+ String "\" (name +:+ String "." ext))).
Proof.
  intros Hn1 Hn2 Hn3 He1 He2 He3.
  rewrite mask_stem_simple by done. f_equal. unfold spec_stem.
  rewrite spec_basename_after_backslash.
  - by rewrite spec_drop_extension_last_dot.
  - rewrite contains_append. simpl. by rewrite Hn2, He2.
  - rewrite contains_append. simpl. by rewrite Hn1, He1.
Qed.

Section Names.
Context `{Collaborators}.

(** C5, at the inputs where the code leaves the claim.  The stem is cut at
    the first dot of the file name, not at its extension, and a directory
    written with a forward slash is not removed. *)
Theorem mask_filename_cut_at_first_dot :
  make_mask_filename "outputs" "Online-test\holiday.2024.jpg"
    = Ok (os_path_join "outputs" "holiday_mask.png") ∧
  spec_stem "Online-test\holiday.2024.jpg" = "holiday.2024"%string ∧
  make_mask_filename "outputs" "Online-test/a.jpg"
    = Ok (os_path_join "outputs" "Online-test/a_mask.png") ∧
  spec_stem "Online-test/a.jpg" = "a"%string.
Proof. by split_and!. Qed.

(** C9.  The batch is given the joined paths of exactly those directory
    entries whose last character is g or G; names ending in .jpg, .jpeg and
    .png are among them. *)
Theorem input_filter_last_letter_g (image_dir : string)
  (entries : list string) :
  main_image_paths image_dir entries
    = os_path_join image_dir <$> select_names entries ∧
  (∀ f, f ∈ select_names entries ↔
        f ∈ entries ∧
        ∃ s c, f = s +:+ String c EmptyString ∧
               (c = "g"%char ∨ c = "G"%char)) ∧
  (∀ s, selected (s +:+ ".jpg") = true ∧ selected (s +:+ ".jpeg") = true ∧
        selected (s +:+ ".png") = true ∧ selected (s +:+ ".JPG") = true).
Proof.
  split_and!; [done| |].
  - intros f. unfold select_names.
    rewrite !list_elem_of_In, filter_In, selected_iff. done.
  - intros s. split_and!.
    + apply (selected_suffix s ".jp" "g").
    + apply (selected_suffix s ".jpe" "g").
    + apply (selected_suffix s ".pn" "g").
    + apply (selected_suffix s ".JP" "G").
Qed.

End Names.

(** * Properties of the thread pool *)

Lemma foldl_invariant {A B} (P : A → Prop) (f : A → B → A) :
  (∀ a b, P a → P (f a b)) → ∀ l a, P a → P (foldl f a l).
Proof.
  intros Hf l. induction l as [|b l IH]; intros a Ha; simpl; [done|].
  apply IH. by apply Hf.
Qed.

Lemma sum_counts_app rs1 rs2 :
  sum_counts (rs1 ++ rs2) = (sum_counts rs1 + sum_counts rs2)%Z.
Proof. induction rs1 as [|r rs1 IH]; simpl; [done|]. rewrite IH. lia. Qed.

(** The total does not depend on the order in which results arrive. *)
Lemma sum_counts_permutation rs1 rs2 :
  rs1 ≡ₚ rs2 → sum_counts rs1 = sum_counts rs2.
Proof.
  induction 1 as [|r rs1 rs2 _ IH|r1 r2 rs|rs1 rs2 rs3 _ IH1 _ IH2]; simpl;
    [done|by rewrite IH|lia|congruence].
Qed.

Section Pool.
Context `{Collaborators}.

Lemma step_returns (t : task) (w : world) :
  ∃ t' w', step t w = (Ok t', w').
Proof.
  unfold step, try_except.
  destruct (step_body t w) as [[t'|e] w']; [by eauto|]. run_M. eauto.
Qed.

Lemma step_progress t w t' w' :
  step t w = (Ok t', w') → remaining t' ≤ pred (remaining t).
Proof.
  destruct t; run_M; intros Hstep;
    repeat case_match; simplify_eq; simpl; lia.
Qed.

Lemma remaining_0_done (t : task) : remaining t = 0 → is_done t = true.
Proof. by destruct t. Qed.

Lemma remaining_le_4 (t : task) : remaining t ≤ 4.
Proof. destruct t; simpl; lia. Qed.

(** Either worker [k] has nothing to do, or it takes one step of
    [process_image] in the shared world. *)
Lemma worker_step_cases (p : pool) (k : nat) :
  worker_step p k = p ∨
  ∃ t t' w',
    futures p !! k = Some t ∧ is_done t = false ∧
    step t (env p) = (Ok t', w') ∧
    worker_step p k
    = {| futures := <[k := t']> (futures p);
         completed := match outcome t' with
                      | Some res => completed p ++ [res]
                      | None => completed p
                      end;
         env := w' |}.
Proof.
  unfold worker_step. destruct (futures p !! k) as [t|] eqn:Hk; [|by left].
  destruct (is_done t) eqn:Hdone; [by left|]. right.
  destruct (step_returns t (env p)) as (t' & w' & Hstep).
  exists t, t', w'. by rewrite Hstep.
Qed.

(** ** Every worker finishes *)

Lemma worker_step_length p k :
  length (futures (worker_step p k)) = length (futures p).
Proof.
  destruct (worker_step_cases p k) as [->|(t & t' & w' & _ & _ & _ & ->)];
    [done|]. simpl. apply length_insert.
Qed.

Lemma worker_step_done_at p k j : done_at p j → done_at (worker_step p k) j.
Proof.
  intros Hj.
  destruct (worker_step_cases p k) as [->|(t & t' & w' & Hk & Hnot & _ & ->)];
    [done|].
  intros tj. simpl. destruct (decide (k = j)) as [->|Hne].
  - apply Hj in Hk. congruence.
  - rewrite list_lookup_insert_ne by done. apply Hj.
Qed.

Lemma worker_step_pending p k :
  pending (worker_step p k) k ≤ pred (pending p k).
Proof.
  destruct (worker_step_cases p k)
    as [Hskip|(t & t' & w' & Hk & Hnot & Hstep & ->)].
  - rewrite Hskip. unfold worker_step in Hskip. unfold pending.
    destruct (futures p !! k) as [t|] eqn:Hk; simpl; [|lia].
    destruct (is_done t) eqn:Hdone.
    + destruct t; simpl in *; try done; lia.
    + destruct (step_returns t (env p)) as (t' & w' & Hstep).
      rewrite Hstep in Hskip. apply (f_equal futures) in Hskip.
      simpl in Hskip.
      assert (Hk' : futures p !! k = Some t') .
      { rewrite <- Hskip. apply list_lookup_insert_eq.
        by eapply lookup_lt_Some. }
      rewrite Hk in Hk'. injection Hk' as <-.
      apply step_progress in Hstep. lia.
  - unfold pending. simpl. rewrite Hk. simpl.
    rewrite list_lookup_insert_eq by (by eapply lookup_lt_Some). simpl.
    by eapply step_progress.
Qed.

Lemma finish_worker_done_at p k : done_at (finish_worker p k) k.
Proof.
  assert (Hzero : pending (finish_worker p k) k = 0).
  { unfold finish_worker.
    pose proof (worker_step_pending p k).
    pose proof (worker_step_pending (worker_step p k) k).
    pose proof (worker_step_pending (worker_step (worker_step p k) k) k).
    pose proof (worker_step_pending
                  (worker_step (worker_step (worker_step p k) k) k) k).
    assert (pending p k ≤ 4); [|lia].
    unfold pending. destruct (futures p !! k) as [t|]; simpl; [|lia].
    apply remaining_le_4. }
  intros t Ht. unfold pending in Hzero. rewrite Ht in Hzero.
  by apply remaining_0_done.
Qed.

Lemma finish_worker_keeps_done p k j :
  done_at p j → done_at (finish_worker p k) j.
Proof. intros Hj. unfold finish_worker. by do 4 apply worker_step_done_at. Qed.

Lemma finish_worker_length p k :
  length (futures (finish_worker p k)) = length (futures p).
Proof. unfold finish_worker. by rewrite !worker_step_length. Qed.

Lemma finish_workers_done d : ∀ i p,
  (∀ j, j < i → done_at p j) →
  ∀ j, j < i + d → done_at (foldl finish_worker p (seq i d)) j.
Proof.
  induction d as [|d IH]; intros i p Hp j Hj; simpl.
  - apply Hp. lia.
  - apply (IH (S i)); [|lia]. intros j' Hj'.
    destruct (decide (j' = i)) as [->|Hne].
    + apply finish_worker_done_at.
    + apply finish_worker_keeps_done, Hp. lia.
Qed.

Lemma join_all_length p : length (futures (join_all p)) = length (futures p).
Proof.
  unfold join_all. generalize (seq 0 (length (futures p))). intros ks.
  revert p. induction ks as [|k ks IH]; intros p; simpl; [done|].
  by rewrite IH, finish_worker_length.
Qed.

(** When the [with] block is left, every future holds a result. *)
Lemma join_all_done p j : done_at (join_all p) j.
Proof.
  intros t Ht. assert (Hj : j < length (futures p)).
  { rewrite <- join_all_length. by eapply lookup_lt_Some. }
  revert t Ht. apply (finish_workers_done (length (futures p)) 0 p); [|lia].
  intros j' Hj'. lia.
Qed.

(** ** Results are collected once each, in some order *)

Lemma omap_outcome_cons (t : task) (ts : list task) :
  omap outcome (t :: ts)
  = match outcome t with
    | Some res => res :: omap outcome ts
    | None => omap outcome ts
    end.
Proof. done. Qed.

Lemma worker_step_collected p k : collected p → collected (worker_step p k).
Proof.
  intros Hp.
  destruct (worker_step_cases p k)
    as [->|(t & t' & w' & Hk & Hnot & _ & ->)]; [done|].
  unfold collected in *. simpl.
  assert (Hout : outcome t = None).
  { unfold is_done in Hnot. by destruct (outcome t). }
  rewrite insert_take_drop by (by eapply lookup_lt_Some).
  rewrite <- (take_drop_middle _ _ _ Hk) in Hp.
  rewrite omap_app, omap_outcome_cons, Hout in Hp.
  rewrite omap_app, omap_outcome_cons.
  destruct (outcome t') as [res|]; [|done].
  etrans; [apply Permutation_app_comm|]. simpl. rewrite Hp.
  apply Permutation_middle.
Qed.

(** ** Invariants of the tasks and of the shared world *)

Section Invariant.
Variable I : world → Prop.
Variable R : string → task → Prop.
Hypothesis step_preserves : ∀ image_path t w,
  I w → R image_path t → is_done t = false →
  ∀ t' w', step t w = (Ok t', w') → I w' ∧ R image_path t'.

Lemma worker_step_ok image_paths p k :
  pool_ok I R image_paths p → pool_ok I R image_paths (worker_step p k).
Proof using step_preserves.
  intros [Hw Hts].
  destruct (worker_step_cases p k)
    as [->|(t & t' & w' & Hk & Hnot & Hstep & ->)]; [done|].
  destruct (Forall2_lookup_r _ _ _ _ _ Hts Hk) as (image_path & Hpath & Ht).
  destruct (step_preserves image_path t (env p) Hw Ht Hnot t' w' Hstep)
    as [Hw' Ht'].
  split; simpl; [done|].
  rewrite <- (list_insert_id image_paths k image_path) by done.
  by apply Forall2_insert.
Qed.

Lemma run_pool_ok schedule image_paths p :
  pool_ok I R image_paths p →
  pool_ok I R image_paths (join_all (run_schedule schedule p)).
Proof using step_preserves.
  intros Hp. unfold join_all, run_schedule.
  apply foldl_invariant.
  - intros a k Ha. unfold finish_worker. by do 4 apply worker_step_ok.
  - apply foldl_invariant; [|done].
    intros a k Ha. by apply worker_step_ok.
Qed.
End Invariant.

Lemma submit_all_collected image_paths output_dir w :
  collected (submit_all image_paths output_dir w).
Proof.
  unfold collected, submit_all. simpl.
  induction image_paths as [|image_path image_paths IH]; [done|].
  by rewrite fmap_cons, omap_outcome_cons.
Qed.

Lemma run_pool_collected schedule image_paths output_dir w :
  collected (run_pool schedule image_paths output_dir w).
Proof.
  unfold run_pool, join_all, run_schedule.
  apply foldl_invariant.
  - intros a k Ha. unfold finish_worker. by do 4 apply worker_step_collected.
  - apply foldl_invariant; [|apply submit_all_collected].
    intros a k Ha. by apply worker_step_collected.
Qed.

Lemma run_pool_done schedule image_paths output_dir w j :
  done_at (run_pool schedule image_paths output_dir w) j.
Proof. apply join_all_done. Qed.

(** ** What the finished futures hold *)

Lemma pixels_loaded_nonneg image_path : (0 ≤ pixels_loaded image_path)%Z.
Proof.
  unfold pixels_loaded. destruct (imread image_path) as [[image|]|e]; lia.
Qed.

Lemma step_tracks output_dir image_path t w t' w' :
  tracks output_dir image_path t → is_done t = false →
  step t w = (Ok t', w') → tracks output_dir image_path t'.
Proof.
  intros Ht _ Hstep. destruct t as [p o|p o mask|p o mask|p o mask|r|e];
    simpl in Ht.
  - destruct Ht as [-> ->]. run_M.
    destruct (imread image_path) as [[image|]|e] eqn:Hread; simpl in Hstep;
      [|by simplify_eq..].
    destruct (build_mask image) as [mask|e] eqn:Hmask; simplify_eq; simpl;
      eauto.
  - destruct Ht as (-> & -> & Himage). run_M.
    destruct (bool_decide (output_dir ∈ existing w)); simplify_eq; simpl;
      eauto.
  - destruct Ht as (-> & -> & Himage). run_M.
    destruct (bool_decide (output_dir ∈ existing w)); simplify_eq; [done|].
    destruct (makedirs_fault output_dir); simplify_eq; simpl; eauto.
  - destruct Ht as (-> & -> & image & Hread & Hmask). run_M.
    destruct (make_mask_filename output_dir image_path) as [f|e] eqn:Hname;
      simpl in Hstep; [|by simplify_eq].
    destruct (imwrite f mask) as [[]|e]; simplify_eq; simpl; eauto 10.
  - run_M. by simplify_eq.
  - done.
Qed.

Lemma tracks_done output_dir image_path t :
  tracks output_dir image_path t → is_done t = true →
  ∃ r, outcome t = Some r ∧ good_result image_path r.
Proof.
  intros Ht Hdone. destruct t as [| | | |[c f]|e]; try done.
  exists (Ok (c, f)). split; [done|]. exists c, f. split; [done|].
  simpl in Ht. destruct f as [f|].
  - destruct Ht as (image & mask & Hread & Hmask & -> & _). split; [|done].
    unfold pixels_loaded. rewrite Hread. by apply mask_count_bounds.
  - subst c. split; [|done]. pose proof (pixels_loaded_nonneg image_path).
    lia.
Qed.

Lemma submit_all_tracks image_paths output_dir w :
  Forall2 (tracks output_dir) image_paths
    (futures (submit_all image_paths output_dir w)).
Proof.
  unfold submit_all. simpl. apply Forall2_fmap_r, Forall_Forall2_diag.
  by apply Forall_forall.
Qed.

Lemma run_pool_tracks schedule image_paths output_dir w :
  Forall2 (tracks output_dir) image_paths
    (futures (run_pool schedule image_paths output_dir w)).
Proof.
  unfold run_pool.
  apply (run_pool_ok (λ _, True) (tracks output_dir)).
  - intros image_path t w1 _ Ht Hnot t' w' Hstep. split; [done|].
    by eapply step_tracks.
  - split; [done|]. apply submit_all_tracks.
Qed.

(** The finished futures, read in submission order, hold one good result
    per path. *)
Lemma run_pool_results schedule image_paths output_dir w :
  Forall2 good_result image_paths
    (omap outcome (futures (run_pool schedule image_paths output_dir w))).
Proof.
  pose proof (run_pool_tracks schedule image_paths output_dir w) as Hts.
  assert (Hdone : Forall (λ t, is_done t = true)
            (futures (run_pool schedule image_paths output_dir w))).
  { apply Forall_lookup. intros j t Ht. by eapply run_pool_done. }
  induction Hts as [|image_path t image_paths ts Ht _ IH]; [constructor|].
  apply Forall_cons in Hdone as [Hd Hds].
  destruct (tracks_done _ _ _ Ht Hd) as (r & Hr & Hgood).
  rewrite omap_outcome_cons, Hr. constructor; [done|]. by apply IH.
Qed.

Lemma good_results_sum image_paths rs :
  Forall2 good_result image_paths rs →
  (0 ≤ sum_counts rs ≤ sum_pixels image_paths)%Z.
Proof.
  induction 1 as [|image_path r image_paths rs (c & f & -> & Hc & _) _ IH];
    simpl; lia.
Qed.

Lemma collect_total rs : ∀ acc w,
  Forall (λ r, ∃ v, r = Ok v) rs →
  ∃ w', collect rs acc w = (Ok (acc + sum_counts rs)%Z, w').
Proof.
  induction rs as [|r rs IH]; intros acc w Hrs; simpl.
  - exists w. unfold mret, M_ret. do 2 f_equal. lia.
  - apply Forall_cons in Hrs as [[[c f] ->] Hrs].
    unfold mbind, M_bind, lift, logging, mret, M_ret. simpl.
    destruct (truthy f).
    + edestruct (IH (acc + c)%Z) as (w' & ->); [done|].
      exists w'. do 2 f_equal. lia.
    + edestruct (IH (acc + c)%Z) as (w' & ->); [done|].
      exists w'. do 2 f_equal. lia.
Qed.

(** The batch returns the plain sum of what its futures returned, whatever
    the order in which they completed. *)
Lemma parallel_total schedule image_paths output_dir w :
  ∃ w',
    process_images_in_parallel schedule image_paths output_dir w
    = (Ok (sum_counts
             (omap outcome
                (futures (run_pool schedule image_paths output_dir w)))), w').
Proof.
  unfold process_images_in_parallel.
  pose proof (run_pool_collected schedule image_paths output_dir w) as Hperm.
  pose proof (run_pool_results schedule image_paths output_dir w) as Hres.
  unfold collected in Hperm.
  set (p := run_pool schedule image_paths output_dir w) in *.
  destruct (collect_total (completed p) 0%Z (env p)) as (w1 & Hcollect).
  { rewrite Hperm. apply Forall2_Forall_r with (Q := λ r, ∃ v, r = Ok v)
      in Hres; [done|].
    apply Forall_forall. intros image_path _ r (c & f & -> & _). eauto. }
  unfold mbind, M_bind at 1. rewrite Hcollect.
  unfold mbind, M_bind, logging, mret, M_ret. simpl.
  eexists. do 2 f_equal. by apply sum_counts_permutation.
Qed.

Lemma failed_results_sum image_paths rs :
  Forall2 good_result image_paths rs →
  Forall (λ r, ∃ c, r = Ok (c, None)) rs → sum_counts rs = 0%Z.
Proof.
  induction 1 as [|image_path r image_paths rs (c & f & -> & _ & Hnone) _ IH];
    intros Hfailed; [done|].
  apply Forall_cons in Hfailed as [[c' [= -> ->]] Hfailed]. simpl.
  rewrite IH by done. rewrite Hnone by done. lia.
Qed.

(** C6.  The batch always completes with a total that is not negative: every
    future ends with a result, the empty list of paths gives 0, and so does
    a batch in which every invocation failed. *)
Theorem batch_always_returns_total schedule image_paths output_dir w :
  ∃ total w',
    process_images_in_parallel schedule image_paths output_dir w
      = (Ok total, w') ∧
    (0 ≤ total)%Z ∧
    length (completed (run_pool schedule image_paths output_dir w))
      = length image_paths ∧
    (image_paths = [] → total = 0%Z) ∧
    (Forall (λ r, ∃ c, r = Ok (c, None))
       (completed (run_pool schedule image_paths output_dir w)) →
     total = 0%Z).
Proof.
  destruct (parallel_total schedule image_paths output_dir w) as (w' & Hrun).
  pose proof (run_pool_results schedule image_paths output_dir w) as Hres.
  pose proof (run_pool_collected schedule image_paths output_dir w) as Hperm.
  unfold collected in Hperm.
  eexists _, w'. split; [exact Hrun|]. split_and!.
  - apply good_results_sum in Hres. lia.
  - rewrite Hperm. symmetry. by eapply Forall2_length.
  - intros ->. by apply Forall2_nil_inv_l in Hres as ->.
  - intros Hfailed. rewrite Hperm in Hfailed.
    by eapply failed_results_sum.
Qed.

(** C10.  The count [process_image] returns for a loaded image lies between
    0 and height*width, and the batch total between 0 and the sum of the
    pixel counts of the images that load. *)
Theorem count_bounded_by_pixels :
  (∀ image_path output_dir w image c f w',
     imread image_path = Ok (Some image) →
     process_image image_path output_dir w = (Ok (c, f), w') →
     (0 ≤ c ≤ Z.of_nat (shape0 image * shape1 image))%Z) ∧
  (∀ schedule image_paths output_dir w,
     ∃ total w',
       process_images_in_parallel schedule image_paths output_dir w
         = (Ok total, w') ∧
       (0 ≤ total ≤ sum_pixels image_paths)%Z).
Proof.
  split.
  - intros image_path output_dir w image c f w'.
    apply process_image_count_bounds.
  - intros schedule image_paths output_dir w.
    destruct (parallel_total schedule image_paths output_dir w)
      as (w' & Hrun).
    eexists _, w'. split; [exact Hrun|].
    apply good_results_sum, run_pool_results.
Qed.

(** ** When the output directory exists beforehand

    No worker then calls [os.makedirs], the workers do not interfere, and the
    total is the sum of what [process_image] returns for each path alone. *)






End Pool.

(** * Concrete runs *)

Lemma mask_on_iff_all_channels_above_witness :
  ∃ mask,
    build_mask boundary_image = Ok mask ∧ getitem2 mask 0 0 = Ok 0%Z.
Proof.
  destruct (@mask_on_iff_all_channels_above sample_folder
              "Online-test\c.png" "outputs" empty_world boundary_image
              eq_refl eq_refl)
    as (mask & Hmask & _ & Hpixels).
  exists mask. split; [exact Hmask|].
  destruct (Hpixels 0 0) as (v0 & v1 & v2 & v & _ & _ & H2 & Hv & _ & _ & Hz);
    [simpl; lia..|].
  injection H2 as <-. rewrite Hv. f_equal. apply Hz. by right; right.
Defined.


Lemma mask_same_shape_and_binary_witness :
  ∃ mask,
    build_mask scenario_image = Ok mask ∧
    mshape0 mask = 2 ∧ mshape1 mask = 2 ∧
    Forall (λ v, v = 0%Z ∨ v = 255%Z) (items2 mask).
Proof.
  destruct (@mask_same_shape_and_binary sample_folder
              "Online-test\b.jpg" "outputs" empty_world scenario_image
              eq_refl eq_refl)
    as (mask & Hmask & _ & H0 & H1 & _ & Hvalues & _).
  exists mask. by split_and!.
Defined.

Lemma scalar_loop_equals_vectorized_witness :
  build_mask scenario_image = Ok (vectorized_mask scenario_image) ∧
  np_sum (vectorized_cond scenario_image) = 2%Z.
Proof.
  destruct (scalar_loop_equals_vectorized scenario_image eq_refl)
    as (mask & Hmask & -> & Hcount).
  split; [exact Hmask|reflexivity].
Defined.

(** C2 as stated fails: an image that loads but whose output directory
    cannot be created gets the count 0, whatever its pixels. *)
Lemma returned_count_zero_after_error :
  ¬ (∀ (C : Collaborators) image_path output_dir w image c f w',
       @imread C image_path = Ok (Some image) → wf_image image = true →
       @process_image C image_path output_dir w = (Ok (c, f), w') →
       c = count_on image).
Proof.
  intros Hclaim.
  specialize (Hclaim no_permission "Online-test\a.png" "outputs"
                empty_world bright_image 0%Z None
                (@process_image no_permission "Online-test\a.png" "outputs"
                   empty_world).2
                eq_refl eq_refl eq_refl).
  vm_compute in Hclaim. discriminate Hclaim.
Qed.

(** C3, at a schedule where the code leaves the claim.  Two readable images
    and an output directory that does not exist yet: alone they count 3 and
    2; run one after the other the batch returns 5; when both workers test
    the directory before either creates it, the second [os.makedirs] raises
    [FileExistsError] and the batch returns 3, or 2 with the roles
    exchanged. *)
Theorem makedirs_race_loses_a_count :
  (@process_image sample_folder "Online-test\a.png" "outputs" empty_world).1
    = Ok (3%Z, Some "outputs\a_mask.png"%string) ∧
  (@process_image sample_folder "Online-test\b.jpg" "outputs" empty_world).1
    = Ok (2%Z, Some "outputs\b_mask.png"%string) ∧
  (@process_images_in_parallel sample_folder []
     ["Online-test\a.png"; "Online-test\b.jpg"]%string "outputs"
     empty_world).1 = Ok 5%Z ∧
  (@process_images_in_parallel sample_folder [0; 1; 0; 1; 0; 1]
     ["Online-test\a.png"; "Online-test\b.jpg"]%string "outputs"
     empty_world).1 = Ok 3%Z ∧
  (@process_images_in_parallel sample_folder [0; 1; 0; 1; 1; 0]
     ["Online-test\a.png"; "Online-test\b.jpg"]%string "outputs"
     empty_world).1 = Ok 2%Z ∧
  In (Error_processing "Online-test\b.jpg" (FileExistsError "outputs"))
    (log (@process_images_in_parallel sample_folder [0; 1; 0; 1; 0; 1]
            ["Online-test\a.png"; "Online-test\b.jpg"]%string "outputs"
            empty_world).2).
Proof. split_and!; try (vm_compute; reflexivity). vm_compute. auto. Qed.

(** * Further properties of line 63 *)

Lemma str_split_pieces_free (sep : ascii) (s : string) :
  Forall (λ piece, contains sep piece = false) (str_split sep s).
Proof.
  induction s as [|c s IH]; simpl; [by repeat constructor|].
  destruct (Ascii.eqb c sep) eqn:Hc; [by constructor|].
  destruct (str_split sep s) as [|piece pieces].
  { constructor; [|constructor]. simpl. by rewrite Hc. }
  apply Forall_cons in IH as [Hpiece Hpieces].
  constructor; [|done]. simpl. by rewrite Hc, Hpiece.
Qed.

Lemma str_split_pieces_keep (d sep : ascii) (s : string) :
  contains d s = false →
  Forall (λ piece, contains d piece = false) (str_split sep s).
Proof.
  induction s as [|c s IH]; simpl; [by repeat constructor|].
  intros [Hc Hs]%orb_false_iff. specialize (IH Hs).
  destruct (Ascii.eqb c sep); [by constructor|].
  destruct (str_split sep s) as [|piece pieces].
  { constructor; [|constructor]. simpl. by rewrite Hc. }
  apply Forall_cons in IH as [Hpiece Hpieces].
  constructor; [|done]. simpl. by rewrite Hc, Hpiece.
Qed.

(** X1.  Line 63 never raises: every path has a stem, and the stem holds
    neither a dot nor a backslash. *)
Theorem mask_stem_never_fails (image_path : string) :
  ∃ stem, mask_stem image_path = Ok stem ∧
          contains "." stem = false ∧ contains "\" stem = false.
Proof.
  unfold mask_stem, getitem_last.
  destruct (last (str_split "\" image_path)) as [name|] eqn:Hlast.
  - assert (Hname : contains "\" name = false).
    { pose proof (str_split_pieces_free "\" image_path) as Hfree.
      rewrite Forall_forall in Hfree. apply Hfree.
      by apply last_Some_elem_of. }
    simpl.
    pose proof (str_split_pieces_free "." name) as Hdot.
    pose proof (str_split_pieces_keep "\" "." name Hname) as Hback.
    destruct (str_split "." name) as [|stem pieces] eqn:Hsplit.
    + by apply str_split_nonempty in Hsplit.
    + apply Forall_cons in Hdot as [Hdot _].
      apply Forall_cons in Hback as [Hback _]. by exists stem.
  - apply last_None in Hlast. by apply str_split_nonempty in Hlast.
Qed.

Section FileNames.
Context `{Collaborators}.

(** X2.  The mask file name depends on the part of the file name before its
    first dot only: images of one folder or of several that differ in their
    extension alone are given the same mask file. *)
Theorem mask_filename_ignores_folder_and_extension
  (output_dir dir1 dir2 name ext1 ext2 : string) :
  contains "\" name = false → contains "." name = false →
  contains "\" ext1 = false → contains "\" ext2 = false →
  make_mask_filename output_dir
    (dir1 +:+ String "\" (name +:+ String "." ext1))
    = Ok (os_path_join output_dir (name +:+ "_mask.png")) ∧
  make_mask_filename output_dir
    (dir2 +:+ String "\" (name +:+ String "." ext2))
    = make_mask_filename output_dir
        (dir1 +:+ String "\" (name +:+ String "." ext1)).
Proof.
  intros Hname Hdot Hext1 Hext2. unfold make_mask_filename.
  by rewrite !mask_stem_simple.
Qed.

End FileNames.

Lemma mask_filename_ignores_folder_and_extension_witness :
  @make_mask_filename sample_folder "outputs" "Online-test\a.png"
    = Ok "outputs\a_mask.png"%string ∧
  @make_mask_filename sample_folder "outputs" "Holidays\a.jpeg"
    = @make_mask_filename sample_folder "outputs" "Online-test\a.png".
Proof.
  exact (@mask_filename_ignores_folder_and_extension sample_folder
           "outputs" "Online-test" "Holidays" "a" "png" "jpeg"
           eq_refl eq_refl eq_refl eq_refl).
Defined.

(** * Further properties of [process_image] *)

Section Rerun.
Context `{Collaborators}.

(** [process_image], case by case. *)
Lemma process_image_cases (image_path output_dir : string) (w : world) :
  process_image image_path output_dir w
  = match imread image_path with
    | Raise e => (Ok (0%Z, None), add_log (Error_processing image_path e) w)
    | Ok None =>
        (Ok (0%Z, None), add_log (Warning_failed_to_read image_path) w)
    | Ok (Some image) =>
        match build_mask image with
        | Raise e =>
            (Ok (0%Z, None), add_log (Error_processing image_path e) w)
        | Ok mask =>
            if bool_decide (output_dir ∈ existing w)
            then save_mask image_path output_dir mask w
            else match makedirs_fault output_dir with
                 | Some e =>
                     (Ok (0%Z, None),
                      add_log (Error_processing image_path e) w)
                 | None =>
                     save_mask image_path output_dir mask
                       (add_path output_dir w)
                 end
        end
    end.
Proof.
  unfold save_mask. run_M.
  destruct (imread image_path) as [[image|]|e]; simpl; [|done..].
  destruct (build_mask image) as [mask|e]; simpl; [|done].
  destruct (bool_decide (output_dir ∈ existing w)) eqn:Hdir; simpl.
  - destruct (make_mask_filename output_dir image_path) as [f|e]; simpl;
      [|done].
    by destruct (imwrite f mask) as [[]|e].
  - rewrite Hdir. destruct (makedirs_fault output_dir); simpl; [done|].
    destruct (make_mask_filename output_dir image_path) as [f|e]; simpl;
      [|done].
    by destruct (imwrite f mask) as [[]|e].
Qed.

Lemma save_mask_value image_path output_dir mask w1 w2 :
  (save_mask image_path output_dir mask w1).1
  = (save_mask image_path output_dir mask w2).1.
Proof.
  unfold save_mask.
  destruct (make_mask_filename output_dir image_path) as [f|e]; [|done].
  by destruct (imwrite f mask) as [[]|e].
Qed.

Lemma save_mask_existing image_path output_dir mask w path :
  path ∈ existing w →
  path ∈ existing (save_mask image_path output_dir mask w).2.
Proof.
  intros Hpath. unfold save_mask.
  destruct (make_mask_filename output_dir image_path) as [f|e]; [|done].
  destruct (imwrite f mask) as [[]|e]; simpl; [|done..].
  by apply elem_of_union_r.
Qed.

Lemma save_mask_twice image_path output_dir mask w :
  existing (save_mask image_path output_dir mask
              (save_mask image_path output_dir mask w).2).2
    = existing (save_mask image_path output_dir mask w).2 ∧
  written (save_mask image_path output_dir mask
             (save_mask image_path output_dir mask w).2).2
    = written (save_mask image_path output_dir mask w).2.
Proof.
  unfold save_mask.
  destruct (make_mask_filename output_dir image_path) as [f|e]; [|done].
  destruct (imwrite f mask) as [[]|e]; simpl; [|done..].
  split; [|apply insert_insert_eq].
  by rewrite (assoc_L (∪)), (idemp_L (∪)).
Qed.

(** X3.  Running [process_image] a second time on the same image and output
    directory returns what the first run returned and leaves the directories
    and the stored masks as the first run left them: an existing directory
    or mask file is no error. *)
Theorem process_image_rerun (image_path output_dir : string) (w : world) :
  (process_image image_path output_dir
     (process_image image_path output_dir w).2).1
    = (process_image image_path output_dir w).1 ∧
  existing (process_image image_path output_dir
              (process_image image_path output_dir w).2).2
    = existing (process_image image_path output_dir w).2 ∧
  written (process_image image_path output_dir
             (process_image image_path output_dir w).2).2
    = written (process_image image_path output_dir w).2.
Proof.
  rewrite (process_image_cases image_path output_dir w).
  rewrite process_image_cases.
  destruct (imread image_path) as [[image|]|e]; [|done..].
  destruct (build_mask image) as [mask|e]; [|done].
  destruct (bool_decide (output_dir ∈ existing w)) eqn:Hdir.
  - apply bool_decide_eq_true_1 in Hdir.
    rewrite bool_decide_eq_true_2 by (by apply save_mask_existing).
    split; [apply save_mask_value|apply save_mask_twice].
  - destruct (makedirs_fault output_dir) as [e|] eqn:Hfault.
    + simpl. by rewrite Hdir.
    + rewrite bool_decide_eq_true_2
        by (apply save_mask_existing; simpl; set_solver).
      split; [apply save_mask_value|apply save_mask_twice].
Qed.

Lemma save_mask_frame image_path output_dir mask w :
  existing w ⊆ existing (save_mask image_path output_dir mask w).2 ∧
  (∀ path, path ∈ existing (save_mask image_path output_dir mask w).2 →
     path ∈ existing w ∨ make_mask_filename output_dir image_path = Ok path) ∧
  (∀ g, make_mask_filename output_dir image_path ≠ Ok g →
     written (save_mask image_path output_dir mask w).2 !! g
     = written w !! g) ∧
  ∃ rec, log (save_mask image_path output_dir mask w).2 = log w ++ [rec] ∧
    match (save_mask image_path output_dir mask w).1 with
    | Ok (c, Some _) => rec = Info_mask_pixels image_path c
    | Ok (_, None) => ∃ e, rec = Error_processing image_path e
    | Raise _ => False
    end.
Proof.
  unfold save_mask.
  destruct (make_mask_filename output_dir image_path) as [f|e]; simpl.
  - destruct (imwrite f mask) as [[]|e]; simpl.
    + split_and!.
      * apply union_subseteq_r.
      * intros path [->%elem_of_singleton|Hpath]%elem_of_union; auto.
      * intros g Hg. apply lookup_insert_ne. congruence.
      * by eexists.
    + split_and!; [done|by auto|done|by eexists].
    + split_and!; [done|by auto|done|]. eexists. split; [done|]. by eexists.
  - split_and!; [done|by auto|done|]. eexists. split; [done|]. by eexists.
Qed.

(** X4.  [process_image] removes no path, leaves every stored mask other
    than its own as it was, and adds exactly one record to the log: the
    count when it returns a file name, a warning or an error when it does
    not. *)
Theorem process_image_frame (image_path output_dir : string) (w : world) :
  existing w ⊆ existing (process_image image_path output_dir w).2 ∧
  (∀ g, make_mask_filename output_dir image_path ≠ Ok g →
     written (process_image image_path output_dir w).2 !! g
     = written w !! g) ∧
  ∃ rec, log (process_image image_path output_dir w).2 = log w ++ [rec] ∧
    match (process_image image_path output_dir w).1 with
    | Ok (c, Some _) => rec = Info_mask_pixels image_path c
    | Ok (_, None) =>
        rec = Warning_failed_to_read image_path ∨
        ∃ e, rec = Error_processing image_path e
    | Raise _ => False
    end.
Proof.
  rewrite process_image_cases.
  destruct (imread image_path) as [[image|]|e]; simpl.
  2-3: split_and!; [done|done|]; eexists; split; [done|]; eauto.
  destruct (build_mask image) as [mask|e]; simpl.
  2: split_and!; [done|done|]; eexists; split; [done|]; eauto.
  destruct (bool_decide (output_dir ∈ existing w)).
  - destruct (save_mask_frame image_path output_dir mask w)
      as (Hsub & _ & Hkeep & rec & Hlog & Hrec).
    split_and!; [done|done|].
    exists rec. split; [done|].
    destruct (save_mask image_path output_dir mask w).1 as [[c [f|]]|e];
      auto.
  - destruct (makedirs_fault output_dir) as [e|]; simpl.
    { split_and!; [done|done|]. eexists. split; [done|]. eauto. }
    destruct (save_mask_frame image_path output_dir mask
                (add_path output_dir w))
      as (Hsub & _ & Hkeep & rec & Hlog & Hrec).
    split_and!.
    + etrans; [|exact Hsub]. apply union_subseteq_r.
    + exact Hkeep.
    + exists rec. split; [done|].
      destruct (save_mask image_path output_dir mask
                  (add_path output_dir w)).1 as [[c [f|]]|e]; auto.
Qed.

(** X5.  When loading, directory creation and writing raise nothing,
    [process_image] returns the number of on positions with the derived file
    name and the output directory exists afterwards.  The result of
    [cv2.imwrite] is not tested: the file holds the mask when it reported
    True, and the same result is returned with nothing stored when it
    reported False. *)
Theorem process_image_success image_path output_dir w image mask f stored :
  imread image_path = Ok (Some image) → wf_image image = true →
  build_mask image = Ok mask →
  output_dir ∈ existing w ∨ makedirs_fault output_dir = None →
  make_mask_filename output_dir image_path = Ok f →
  imwrite f mask = Ok stored →
  (process_image image_path output_dir w).1 = Ok (count_on image, Some f) ∧
  output_dir ∈ existing (process_image image_path output_dir w).2 ∧
  written (process_image image_path output_dir w).2 !! f
    = (if stored then Some mask else written w !! f).
Proof.
  intros Hread Hwf Hmask Hdir Hname Hwrite.
  rewrite process_image_cases, Hread, Hmask.
  rewrite <- (mask_count_is_count_on image mask Hwf Hmask).
  assert (Hsave : ∀ w1, output_dir ∈ existing w1 → written w1 = written w →
    (save_mask image_path output_dir mask w1).1
      = Ok (np_sum (np_equal mask 255), Some f) ∧
    output_dir ∈ existing (save_mask image_path output_dir mask w1).2 ∧
    written (save_mask image_path output_dir mask w1).2 !! f
      = (if stored then Some mask else written w !! f)).
  { intros w1 Hw1 Hwritten. unfold save_mask. rewrite Hname, Hwrite. simpl.
    split_and!; [done| |].
    - destruct stored; simpl; [by apply elem_of_union_r|done].
    - destruct stored; simpl; [apply lookup_insert_eq|by rewrite Hwritten]. }
  destruct (bool_decide (output_dir ∈ existing w)) eqn:Hb.
  - apply Hsave; [by apply bool_decide_eq_true_1 in Hb|done].
  - destruct Hdir as [Hin|Hfault].
    + apply bool_decide_eq_false_1 in Hb. done.
    + rewrite Hfault. apply Hsave; [|done]. simpl.
      apply elem_of_union_l. by apply elem_of_singleton.
Qed.

End Rerun.

Lemma process_image_success_witness :
  (@process_image failing_disk "Online-test\a.png" "outputs"
     empty_world).1 = Ok (count_on bright_image, Some "outputs\a_mask.png"%string) ∧
  "outputs"%string ∈ existing
    (@process_image failing_disk "Online-test\a.png" "outputs"
       empty_world).2 ∧
  written (@process_image failing_disk "Online-test\a.png" "outputs"
             empty_world).2 !! "outputs\a_mask.png"%string
    = written empty_world !! "outputs\a_mask.png"%string.
Proof.
  exact (@process_image_success failing_disk "Online-test\a.png" "outputs"
           empty_world bright_image (vectorized_mask bright_image)
           "outputs\a_mask.png" false
           eq_refl eq_refl eq_refl (or_intror eq_refl) eq_refl eq_refl).
Defined.

(** * Further properties of the batch *)

Section Batch.
Context `{Collaborators}.

Lemma sum_counts_foldr rs :
  sum_counts rs = foldr Z.add 0%Z (result_count <$> rs).
Proof. induction rs as [|r rs IH]; simpl; [done|]. by rewrite IH. Qed.

Lemma tracks_done_contribution output_dir image_path t :
  tracks output_dir image_path t → is_done t = true →
  ∃ r, outcome t = Some r ∧ contribution image_path (result_count r).
Proof.
  intros Ht Hdone. destruct t as [| | | |[c f]|e]; try done.
  exists (Ok (c, f)). split; [done|]. simpl in *. destruct f as [f|].
  - destruct Ht as (image & mask & Hread & Hmask & -> & _).
    right. by exists image, mask.
  - by left.
Qed.

(** X6.  Whatever the interleaving, the total is a sum with one term per
    path, and each term is either 0 or the number of 255 entries of the mask
    of the image at that path: an image is counted in full or not at all,
    and never twice. *)
Theorem batch_counts_each_image_fully_or_not
  schedule image_paths output_dir w :
  ∃ cs w',
    process_images_in_parallel schedule image_paths output_dir w
      = (Ok (foldr Z.add 0%Z cs), w') ∧
    Forall2 contribution image_paths cs.
Proof.
  destruct (parallel_total schedule image_paths output_dir w) as (w' & Hrun).
  eexists _, w'. rewrite sum_counts_foldr in Hrun. split; [exact Hrun|].
  clear Hrun.
  pose proof (run_pool_tracks schedule image_paths output_dir w) as Hts.
  assert (Hdone : Forall (λ t, is_done t = true)
            (futures (run_pool schedule image_paths output_dir w))).
  { apply Forall_lookup. intros j t Ht. by eapply run_pool_done. }
  induction Hts as [|image_path t image_paths ts Ht _ IH]; [constructor|].
  apply Forall_cons in Hdone as [Hd Hds].
  destruct (tracks_done_contribution _ _ _ Ht Hd) as (r & Hr & Hc).
  rewrite omap_outcome_cons, Hr, fmap_cons. constructor; [done|].
  by apply IH.
Qed.

(** ** A batch that decodes nothing *)

Lemma collect_frame rs : ∀ acc w,
  existing (collect rs acc w).2 = existing w ∧
  written (collect rs acc w).2 = written w.
Proof.
  induction rs as [|r rs IH]; intros acc w; simpl; [done|].
  unfold mbind, M_bind, lift, logging, mret, M_ret.
  destruct r as [[c f]|e]; simpl; [|done].
  destruct (truthy f); simpl.
  - destruct (IH (acc + c)%Z
                {| existing := existing w; written := written w;
                   log := log w ++
                     [Info_mask_saved (default EmptyString f)] |})
      as [He Hw]. by rewrite He, Hw.
  - apply IH.
Qed.

(** The batch leaves the directories and stored masks as its workers left
    them: the collection loop only logs. *)
Lemma parallel_world schedule image_paths output_dir w :
  existing (process_images_in_parallel schedule image_paths output_dir w).2
    = existing (env (run_pool schedule image_paths output_dir w)) ∧
  written (process_images_in_parallel schedule image_paths output_dir w).2
    = written (env (run_pool schedule image_paths output_dir w)).
Proof.
  unfold process_images_in_parallel.
  set (p := run_pool schedule image_paths output_dir w).
  pose proof (collect_frame (completed p) 0%Z (env p)) as [He Hw].
  unfold mbind, M_bind, logging, mret, M_ret.
  by destruct (collect (completed p) 0%Z (env p)) as [[total|e] w1].
Qed.

Lemma step_tracks_unreadable w0 output_dir image_path t w t' w' :
  existing w = existing w0 ∧ written w = written w0 →
  tracks_unreadable output_dir image_path t → is_done t = false →
  step t w = (Ok t', w') →
  (existing w' = existing w0 ∧ written w' = written w0) ∧
  tracks_unreadable output_dir image_path t'.
Proof.
  intros [He Hw] [Hbad [->| ->]] Hnot Hstep; [|done]. run_M.
  destruct (imread image_path) as [[image|]|e] eqn:Hread; simpl in Hstep.
  - by destruct (Hbad image).
  - injection Hstep as <- <-. simpl. split; [done|]. split; auto.
  - injection Hstep as <- <-. simpl. split; [done|]. split; auto.
Qed.

(** X7.  A batch none of whose paths decodes to an image returns 0, creates
    no directory, not even the output directory, and stores no file.  The
    empty batch is such a batch. *)
Theorem batch_without_readable_image schedule image_paths output_dir w :
  Forall unreadable image_paths →
  ∃ w',
    process_images_in_parallel schedule image_paths output_dir w
      = (Ok 0%Z, w') ∧
    existing w' = existing w ∧ written w' = written w.
Proof.
  intros Hbad.
  assert (Hok : pool_ok
            (λ w1, existing w1 = existing w ∧ written w1 = written w)
            (tracks_unreadable output_dir) image_paths
            (run_pool schedule image_paths output_dir w)).
  { unfold run_pool. apply run_pool_ok.
    - intros image_path t w1 Hw1 Ht Hnot t' w' Hstep.
      by eapply step_tracks_unreadable.
    - split; [done|]. unfold submit_all. simpl.
      apply Forall2_fmap_r, Forall_Forall2_diag.
      eapply Forall_impl; [exact Hbad|]. intros image_path Hp.
      split; auto. }
  destruct Hok as [[He Hw] Hts].
  destruct (parallel_total schedule image_paths output_dir w) as (w' & Hrun).
  pose proof (parallel_world schedule image_paths output_dir w) as [He' Hw'].
  rewrite Hrun in He', Hw'. simpl in He', Hw'.
  exists w'. split_and!; [|congruence..].
  rewrite Hrun. do 2 f_equal.
  assert (Hdone : Forall (λ t, is_done t = true)
            (futures (run_pool schedule image_paths output_dir w))).
  { apply Forall_lookup. intros j t Ht. by eapply run_pool_done. }
  clear Hrun He Hw He' Hw'.
  induction Hts as [|image_path t image_paths ts [_ Ht] _ IH]; [done|].
  apply Forall_cons in Hdone as [Hd Hds].
  apply Forall_cons in Hbad as [_ Hbad].
  destruct Ht as [-> | ->]; [done|].
  rewrite omap_outcome_cons. simpl. by rewrite IH.
Qed.

(** ** The order of collection *)

(** X8.  The collection loop of lines 104-108 gives the same total in
    whatever order the futures complete. *)
Theorem collect_order_independent rs1 rs2 acc w :
  rs1 ≡ₚ rs2 → Forall (λ r, ∃ v, r = Ok v) rs1 →
  (collect rs1 acc w).1 = (collect rs2 acc w).1 ∧
  (collect rs1 acc w).1 = Ok (acc + sum_counts rs1)%Z.
Proof.
  intros Hperm Hok.
  destruct (collect_total rs1 acc w Hok) as (w1 & H1).
  destruct (collect_total rs2 acc w) as (w2 & H2); [by rewrite <- Hperm|].
  rewrite H1, H2. simpl. split; [|done].
  by rewrite (sum_counts_permutation rs1 rs2).
Qed.

(** ** With the directory in place *)


(** ** Without it: the first worker to create the directory wins *)

Lemma sum_counts_elem (r : result (Z * option string)) rs :
  r ∈ rs → Forall (λ r', (0 ≤ result_count r')%Z) rs →
  (result_count r ≤ sum_counts rs)%Z.
Proof.
  intros Hin Hpos. induction Hpos as [|r' rs Hr' Hrs IH]; [by inv Hin|].
  assert (0 ≤ sum_counts rs)%Z.
  { clear -Hrs. induction Hrs; simpl; lia. }
  inv Hin; simpl; [lia|]. specialize (IH ltac:(done)). lia.
Qed.

Lemma worker_step_one_counted output_dir image_paths p k :
  Forall (processable output_dir) image_paths →
  makedirs_fault output_dir = None →
  one_counted output_dir image_paths p →
  one_counted output_dir image_paths (worker_step p k).
Proof.
  intros Hproc Hfault [Hts Hstate].
  assert (Hts' : Forall2 (tracks output_dir) image_paths
                   (futures (worker_step p k))).
  { apply (worker_step_ok (λ _, True) (tracks output_dir)); [|done].
    intros image_path t w1 _ Ht Hnot t' w' Hstep. split; [done|].
    by eapply step_tracks. }
  split; [done|]. clear Hts'.
  destruct (worker_step_cases p k)
    as [->|(t & t' & w' & Hk & Hnot & Hstep & ->)]; [done|]. simpl.
  assert (Hlen : k < length (futures p)) by (by eapply lookup_lt_Some).
  destruct Hstate as [[Hearly Hcreating]|(j & tj & Hj & Hwin)].
  - destruct (Forall2_lookup_r _ _ _ _ _ Hts Hk) as (path & Hpath & Ht).
    pose proof (Forall_lookup_1 _ _ _ _ Hproc Hpath)
      as (image & mask & f & Hread & Hmask & Hname & Hwrite).
    pose proof (Forall_lookup_1 _ _ _ _ Hearly Hk) as Het.
    assert (Hin : path ∈ image_paths) by (by eapply list_elem_of_lookup_2).
    destruct t as [p0 o0|p0 o0 m0|p0 o0 m0| | |]; simpl in Ht, Het;
      try done.
    + destruct Ht as [-> ->]. run_M. rewrite Hread in Hstep.
      simpl in Hstep. rewrite Hmask in Hstep. injection Hstep as <- <-.
      left. split.
      * by apply Forall_insert.
      * intros Hdir. apply Forall_insert; [by apply Hcreating|]. by intros [].
    + destruct Ht as (-> & -> & image' & Hread' & Hmask').
      rewrite Hread in Hread'. injection Hread' as <-.
      rewrite Hmask in Hmask'. injection Hmask' as <-.
      run_M.
      destruct (bool_decide (output_dir ∈ existing (env p))) eqn:Hdir;
        simpl in Hstep; injection Hstep as <- <-.
      * right. exists k, (Writing path output_dir mask).
        split; [by apply list_lookup_insert_eq|].
        exists path, image, mask, f. split_and!; auto.
      * left. split; [by apply Forall_insert|].
        intros Hin'. apply bool_decide_eq_false_1 in Hdir. done.
    + destruct Ht as (-> & -> & image' & Hread' & Hmask').
      rewrite Hread in Hread'. injection Hread' as <-.
      rewrite Hmask in Hmask'. injection Hmask' as <-.
      run_M.
      destruct (bool_decide (output_dir ∈ existing (env p))) eqn:Hdir.
      * apply bool_decide_eq_true_1 in Hdir.
        pose proof (Forall_lookup_1 _ _ _ _ (Hcreating Hdir) Hk) as Hno.
        by destruct Hno.
      * rewrite Hfault in Hstep. simpl in Hstep. injection Hstep as <- <-.
        right. exists k, (Writing path output_dir mask).
        split; [by apply list_lookup_insert_eq|].
        exists path, image, mask, f. split_and!; auto.
  - right. destruct (decide (k = j)) as [->|Hne].
    + rewrite Hk in Hj. injection Hj as <-.
      destruct Hwin as (p0 & image & mask & f & Hin & Hread & Hmask & Hname
                        & Hwrite & [-> | ->]); [|done].
      assert (∃ stored, imwrite f mask = Ok stored) as [stored Hstored].
      { destruct (imwrite f mask) as [stored|e] eqn:Hw; [by eauto|].
        by destruct (Hwrite e). }
      run_M. rewrite Hname in Hstep. simpl in Hstep.
      rewrite Hstored in Hstep.
      exists j, (Returned (np_sum (np_equal mask 255), Some f)).
      split.
      * destruct stored; simpl in Hstep; injection Hstep as <- <-;
          by apply list_lookup_insert_eq.
      * exists p0, image, mask, f. split_and!; auto.
    + exists j, tj. split; [|done]. by rewrite list_lookup_insert_ne.
Qed.

(** X10.  When every image of a batch can be processed and the output
    directory can be created, the race on its creation never loses every
    image: whatever the interleaving, at least one image is counted in
    full. *)
Theorem batch_counts_at_least_one schedule image_paths output_dir w :
  image_paths ≠ [] →
  Forall (processable output_dir) image_paths →
  makedirs_fault output_dir = None →
  ∃ total w' image_path image mask,
    process_images_in_parallel schedule image_paths output_dir w
      = (Ok total, w') ∧
    image_path ∈ image_paths ∧
    imread image_path = Ok (Some image) ∧ build_mask image = Ok mask ∧
    (np_sum (np_equal mask 255) ≤ total)%Z.
Proof.
  intros Hne Hproc Hfault.
  assert (Hinv : one_counted output_dir image_paths
                   (run_pool schedule image_paths output_dir w)).
  { unfold run_pool, join_all, run_schedule. apply foldl_invariant.
    - intros a k Ha. unfold finish_worker.
      by do 4 (apply worker_step_one_counted; [done|done|]).
    - apply foldl_invariant.
      + intros a k Ha. by apply worker_step_one_counted.
      + split; [apply submit_all_tracks|]. left. unfold submit_all. simpl.
        split; [|intros _]; apply Forall_fmap, Forall_forall.
        * by intros image_path _.
        * by intros image_path _ []. }
  destruct (parallel_total schedule image_paths output_dir w) as (w' & Hrun).
  pose proof (run_pool_results schedule image_paths output_dir w) as Hres.
  destruct Hinv as [Hts [[Hearly _]|(k & t & Hk & Hwin)]].
  - destruct image_paths as [|image_path image_paths]; [done|].
    apply Forall2_cons_inv_l in Hts as (t & ts & _ & _ & Hfut).
    assert (Ht : futures (run_pool schedule (image_path :: image_paths)
                   output_dir w) !! 0 = Some t) by (by rewrite Hfut).
    pose proof (run_pool_done _ _ _ _ _ _ Ht) as Hdone.
    pose proof (Forall_lookup_1 _ _ _ _ Hearly Ht) as Het.
    by destruct t.
  - pose proof (run_pool_done _ _ _ _ _ _ Hk) as Hdone.
    destruct Hwin as (p0 & image & mask & f & Hin & Hread & Hmask & Hname
                      & Hwrite & [-> | ->]); [done|].
    eexists _, w', p0, image, mask. split_and!; [exact Hrun|done..|].
    apply (sum_counts_elem (Ok (np_sum (np_equal mask 255), Some f))).
    + apply list_elem_of_omap.
      exists (Returned (np_sum (np_equal mask 255), Some f)).
      split; [|done]. by eapply list_elem_of_lookup_2.
    + eapply Forall2_Forall_r; [exact Hres|].
      apply Forall_forall. intros path _ r (c & f' & -> & Hc & _).
      simpl. lia.
Qed.

End Batch.

Lemma batch_without_readable_image_witness :
  ∃ w',
    @process_images_in_parallel sample_folder [1; 0; 1]
      ["notes.log"; "Online-test\missing.png"]%string "outputs" empty_world
      = (Ok 0%Z, w') ∧
    existing w' = existing empty_world ∧ written w' = written empty_world.
Proof.
  apply (@batch_without_readable_image sample_folder).
  repeat constructor; intros image; vm_compute; discriminate.
Defined.

Lemma collect_order_independent_witness :
  (@collect [Ok (3%Z, Some "a"%string); Ok (0%Z, None)] 0%Z empty_world).1
    = (@collect [Ok (0%Z, None); Ok (3%Z, Some "a"%string)] 0%Z
         empty_world).1 ∧
  (@collect [Ok (3%Z, Some "a"%string); Ok (0%Z, None)] 0%Z empty_world).1
    = Ok 3%Z.
Proof.
  apply (collect_order_independent
           [Ok (3%Z, Some "a"%string); Ok (0%Z, None)]
           [Ok (0%Z, None); Ok (3%Z, Some "a"%string)] 0%Z empty_world).
  - apply perm_swap.
  - repeat constructor; eauto.
Defined.


Lemma batch_counts_at_least_one_witness :
  ∃ total w' image_path image mask,
    @process_images_in_parallel sample_folder [0; 1; 0; 1; 0; 1]
      ["Online-test\a.png"; "Online-test\b.jpg"]%string "outputs"
      empty_world = (Ok total, w') ∧
    image_path ∈ ["Online-test\a.png"; "Online-test\b.jpg"]%string ∧
    @imread sample_folder image_path = Ok (Some image) ∧
    build_mask image = Ok mask ∧
    (np_sum (np_equal mask 255) ≤ total)%Z.
Proof.
  apply (@batch_counts_at_least_one sample_folder).
  - discriminate.
  - repeat constructor.
    + exists bright_image, (vectorized_mask bright_image),
        "outputs\a_mask.png"%string.
      split_and!; [reflexivity..|]. intros e. discriminate.
    + exists scenario_image, (vectorized_mask scenario_image),
        "outputs\b_mask.png"%string.
      split_and!; [reflexivity..|]. intros e. discriminate.
  - reflexivity.
Defined.

(** * Further properties of the mask *)

Lemma reverse_channels_lookup (image : ndarray3) (k c : nat) :
  wf_image image = true → k < shape0 image * shape1 image → c < 3 →
  chan (reverse_channels image) k c = chan image k (2 - c).
Proof.
  intros Hwf Hk Hc. unfold chan, reverse_channels. simpl.
  rewrite (wf_image_channels image Hwf).
  change (map ?f ?l) with (f <$> l).
  rewrite list_lookup_fmap, lookup_seq_lt
    by (rewrite (wf_image_length image Hwf); lia).
  cbn -[Nat.div Nat.modulo].
  replace ((k * 3 + c) / 3) with k
    by (rewrite Nat.div_add_l by lia; rewrite Nat.div_small; lia).
  replace ((k * 3 + c) mod 3) with c
    by (rewrite Nat.add_comm, Nat.Div0.mod_add; by rewrite Nat.mod_small).
  by replace (3 - 1 - c) with (2 - c) by lia.
Qed.

Lemma reverse_channels_wf (image : ndarray3) :
  wf_image image = true → wf_image (reverse_channels image) = true.
Proof.
  intros Hwf. pose proof Hwf as Hwf'.
  unfold wf_image in Hwf |- *. rewrite !andb_true_iff in Hwf |- *.
  destruct Hwf as [[Hc Hl] Hall]. simpl. split_and!; [done| |].
  - by rewrite length_map, length_seq.
  - apply forallb_forall. intros v Hv.
    apply in_map_iff in Hv as (n & <- & _).
    destruct (items3 image !! _) as [x|] eqn:Hx; simpl; [|done].
    rewrite forallb_forall in Hall. apply Hall.
    apply list_elem_of_In. by eapply list_elem_of_lookup_2.
Qed.

(** X11.  The mask does not depend on the order of the channels: the same
    picture read as RGB instead of BGR gets the same mask. *)
Theorem mask_channel_order_agnostic (image : ndarray3) :
  wf_image image = true →
  build_mask (reverse_channels image) = build_mask image.
Proof.
  intros Hwf.
  rewrite (build_mask_visited image Hwf).
  rewrite (build_mask_visited _ (reverse_channels_wf image Hwf)).
  simpl. do 2 f_equal. apply map_ext_in. intros k Hk.
  apply in_seq in Hk. f_equal. unfold on_at.
  rewrite !reverse_channels_lookup by (done || lia). simpl.
  destruct (200 <? chan image k 0)%Z, (200 <? chan image k 1)%Z,
    (200 <? chan image k 2)%Z; done.
Qed.

Lemma chan_le (image image' : ndarray3) (k c : nat) :
  Forall2 Z.le (items3 image) (items3 image') →
  (chan image k c ≤ chan image' k c)%Z.
Proof.
  intros Hle. unfold chan.
  destruct (items3 image !! (k * 3 + c)) as [v|] eqn:Hv.
  - destruct (Forall2_lookup_l _ _ _ _ _ Hle Hv) as (v' & -> & Hvv). done.
  - apply lookup_ge_None in Hv. rewrite (Forall2_length _ _ _ Hle) in Hv.
    apply lookup_ge_None in Hv. by rewrite Hv.
Qed.

Lemma on_at_le (image image' : ndarray3) (k : nat) :
  Forall2 Z.le (items3 image) (items3 image') →
  on_at image k = true → on_at image' k = true.
Proof.
  intros Hle. rewrite !on_at_iff.
  pose proof (chan_le image image' k 0 Hle).
  pose proof (chan_le image image' k 1 Hle).
  pose proof (chan_le image image' k 2 Hle). lia.
Qed.

Lemma filter_length_le {A} (g g' : A → bool) (l : list A) :
  (∀ x, g x = true → g' x = true) →
  length (List.filter g l) ≤ length (List.filter g' l).
Proof.
  intros Hg. induction l as [|x l IH]; simpl; [done|].
  destruct (g x) eqn:Hx.
  - rewrite (Hg x Hx). simpl. lia.
  - destruct (g' x); simpl; lia.
Qed.

(** X12.  Raising channel values never switches a mask pixel off: if no
    channel of the second image is below the first's, every mask entry and
    the count of the second are at least those of the first. *)
Theorem mask_monotone (image image' : ndarray3) :
  wf_image image = true → wf_image image' = true →
  shape0 image' = shape0 image → shape1 image' = shape1 image →
  Forall2 Z.le (items3 image) (items3 image') →
  ∃ mask mask',
    build_mask image = Ok mask ∧ build_mask image' = Ok mask' ∧
    Forall2 Z.le (items2 mask) (items2 mask') ∧
    (np_sum (np_equal mask 255) ≤ np_sum (np_equal mask' 255))%Z.
Proof.
  intros Hwf Hwf' H0 H1 Hle.
  eexists _, _. split; [by apply build_mask_visited|].
  split; [by apply build_mask_visited|]. rewrite H0, H1.
  unfold np_equal. simpl. split.
  - apply Forall2_fmap, Forall_Forall2_diag, Forall_forall. intros k _.
    destruct (on_at image k) eqn:Hon; simpl.
    + by rewrite (on_at_le image image' k Hle Hon).
    + by destruct (on_at image' k).
  - rewrite !np_sum_mask_values. apply inj_le, filter_length_le.
    intros k. by apply on_at_le.
Qed.

Lemma mask_channel_order_agnostic_witness :
  build_mask (Ndarray3 1 2 3 [230; 255; 201; 250; 220; 10]%Z)
  = build_mask tinted_image.
Proof. exact (mask_channel_order_agnostic tinted_image eq_refl). Defined.

Lemma mask_monotone_witness :
  ∃ mask mask',
    build_mask boundary_image = Ok mask ∧
    build_mask (Ndarray3 1 1 3 [255; 255; 201]%Z) = Ok mask' ∧
    Forall2 Z.le (items2 mask) (items2 mask') ∧
    (np_sum (np_equal mask 255) ≤ np_sum (np_equal mask' 255))%Z.
Proof.
  apply (mask_monotone boundary_image (Ndarray3 1 1 3 [255; 255; 201]%Z));
    try reflexivity.
  repeat constructor; simpl; lia.
Defined.

(** * The script's entry point *)

Section Main.
Context `{Collaborators}.

Lemma run_pool_nil schedule output_dir w :
  run_pool schedule [] output_dir w
  = {| futures := []; completed := []; env := w |}.
Proof.
  unfold run_pool, submit_all. simpl.
  assert (Hrun : run_schedule schedule
                   {| futures := []; completed := []; env := w |}
                 = {| futures := []; completed := []; env := w |}).
  { unfold run_schedule. induction schedule as [|k schedule IH]; [done|].
    simpl. exact IH. }
  by rewrite Hrun.
Qed.

Lemma select_names_none (entries : list string) :
  Forall (λ f, selected f = false) entries → select_names entries = [].
Proof.
  intros Hnone. unfold select_names. apply filter_none.
  intros f Hf. rewrite Forall_forall in Hnone. apply Hnone.
  by apply list_elem_of_In.
Qed.

(** X13.  The script ends with an exception only when [os.listdir] raises,
    and then before anything is logged or written; otherwise it returns a
    total that is not negative, and when no name of the folder ends in g or
    G it returns 0 without creating the output directory, its only log
    record being the total. *)
Theorem main_behaviour schedule
  (os_listdir : string → result (list string)) (w : world) :
  (∀ e, os_listdir "Online-test" = Raise e →
     main schedule os_listdir w = (Raise e, w)) ∧
  (∀ entries, os_listdir "Online-test" = Ok entries →
     ∃ total w', main schedule os_listdir w = (Ok total, w') ∧
                 (0 ≤ total)%Z) ∧
  (∀ entries, os_listdir "Online-test" = Ok entries →
     Forall (λ f, selected f = false) entries →
     main schedule os_listdir w = (Ok 0%Z, add_log (Info_total 0%Z) w)).
Proof.
  unfold main, mbind, M_bind, lift. split_and!.
  - by intros e ->.
  - intros entries ->.
    destruct (parallel_total schedule
                (main_image_paths "Online-test" entries) "outputs" w)
      as (w' & Hrun).
    eexists _, w'. split; [exact Hrun|].
    pose proof (run_pool_results schedule
                  (main_image_paths "Online-test" entries) "outputs" w)
      as Hres.
    apply good_results_sum in Hres. lia.
  - intros entries -> Hnone. unfold main_image_paths.
    rewrite select_names_none by done. simpl.
    unfold process_images_in_parallel. by rewrite run_pool_nil.
Qed.

End Main.

(** * The count of an image processed without an exception *)

Lemma mask_stem_defined (image_path : string) :
  ∃ stem, mask_stem image_path = Ok stem.
Proof.
  unfold mask_stem, getitem_last.
  destruct (last (str_split "\" image_path)) as [name|] eqn:Hlast.
  - simpl. destruct (str_split "." name) as [|stem pieces] eqn:Hsplit.
    + by apply str_split_nonempty in Hsplit.
    + by exists stem.
  - apply last_None in Hlast. by apply str_split_nonempty in Hlast.
Qed.

Section ReturnedCount.
Context `{Collaborators}.

(** C2, as amended.  For a loaded image, when neither the creation of the
    output directory nor the writing of the mask raises, [process_image]
    returns an output location and, as its count, the number of positions
    whose channels all exceed 200: 0 for an image with no channel above
    200, width*height for an image whose channels are all 255. *)
Theorem returned_count_without_exception image_path output_dir w image :
  imread image_path = Ok (Some image) → wf_image image = true →
  output_dir ∈ existing w ∨ makedirs_fault output_dir = None →
  (∀ mask f e, build_mask image = Ok mask →
     make_mask_filename output_dir image_path = Ok f →
     imwrite f mask ≠ Raise e) →
  ∃ c f w',
    process_image image_path output_dir w = (Ok (c, Some f), w') ∧
    c = count_on image ∧
    (Forall (λ v, (v ≤ 200)%Z) (items3 image) → c = 0%Z) ∧
    (Forall (λ v, v = 255%Z) (items3 image) →
     c = Z.of_nat (shape1 image * shape0 image)).
Proof.
  intros Hread Hwf Hdir Hwrite.
  pose proof (build_mask_visited image Hwf) as Hmask.
  destruct (mask_stem_defined image_path) as [stem Hstem].
  assert (Hname : make_mask_filename output_dir image_path
                  = Ok (os_path_join output_dir (stem +:+ "_mask.png"))).
  { unfold make_mask_filename. by rewrite Hstem. }
  assert (∃ stored, imwrite (os_path_join output_dir (stem +:+ "_mask.png"))
            (Ndarray2 (shape0 image) (shape1 image)
               (map (λ k, mask_value (on_at image k))
                  (seq 0 (shape0 image * shape1 image)))) = Ok stored)
    as [stored Hstored].
  { destruct (imwrite _ _) as [stored|e] eqn:Hw; [by eauto|].
    by destruct (Hwrite _ _ e Hmask Hname). }
  assert (Hsave : ∀ w1,
    save_mask image_path output_dir
      (Ndarray2 (shape0 image) (shape1 image)
         (map (λ k, mask_value (on_at image k))
            (seq 0 (shape0 image * shape1 image)))) w1
    = (Ok (count_on image,
           Some (os_path_join output_dir (stem +:+ "_mask.png"))),
       (save_mask image_path output_dir
          (Ndarray2 (shape0 image) (shape1 image)
             (map (λ k, mask_value (on_at image k))
                (seq 0 (shape0 image * shape1 image)))) w1).2)).
  { intros w1. unfold save_mask. rewrite Hname, Hstored. simpl.
    by rewrite (mask_count_is_count_on image _ Hwf Hmask). }
  assert (∃ w', process_image image_path output_dir w
            = (Ok (count_on image,
                   Some (os_path_join output_dir (stem +:+ "_mask.png"))),
               w')) as [w' Hrun].
  { rewrite process_image_cases, Hread, Hmask.
    destruct (bool_decide (output_dir ∈ existing w)) eqn:Hb.
    - eexists. apply Hsave.
    - destruct Hdir as [Hin|Hfault].
      + apply bool_decide_eq_false_1 in Hb. done.
      + rewrite Hfault. eexists. apply Hsave. }
  exists (count_on image), (os_path_join output_dir (stem +:+ "_mask.png")),
    w'.
  split_and!; [done|done|by apply count_on_all_low
               |by apply count_on_all_255].
Qed.

End ReturnedCount.

Lemma returned_count_without_exception_witness :
  ∃ c f w',
    @process_image sample_folder "Online-test\a.png" "outputs" empty_world
      = (Ok (c, Some f), w') ∧
    c = count_on bright_image ∧
    (Forall (λ v, (v ≤ 200)%Z) (items3 bright_image) → c = 0%Z) ∧
    (Forall (λ v, v = 255%Z) (items3 bright_image) →
     c = Z.of_nat (shape1 bright_image * shape0 bright_image)).
Proof.
  apply (@returned_count_without_exception sample_folder
           "Online-test\a.png" "outputs" empty_world bright_image).
  - reflexivity.
  - reflexivity.
  - right. reflexivity.
  - intros mask f e _ _. discriminate.
Defined.
